(** * Gmail attachment archiver

    A shallow embedding of [read_emails2.py]: the script authenticates,
    creates a month-named Drive folder, searches a mailbox, and uploads the
    attachments whose file name ends in an allowed extension and is not yet
    present in the folder.

    Conventions of the embedding.
    - A Python [str] is a [string] whose characters are the code points
      below 256; [lower], [strip], [split], [endswith] and [replace] are
      Python's on that range.
    - A service response (a Python dict) is a record with one optional field
      per key the script reads: [d[k]] raises [KeyError] on [None], [d.get(k)]
      and [k in d] do not.
    - The script runs in a monad that threads the Drive contents, collects
      the service calls and printed lines in order, and stops at the first
      exception.  Gmail is only read, so it is a record of functions.
    - Every call to a service can fail: the answers of Gmail and of the
      identity provider are results, and the Drive comes with a record that
      says when a call fails. *)

From Stdlib Require Import Ascii String NArith List Lia.
From stdpp Require Import base list strings gmap pretty.

(** ** Exceptions and results *)

Inductive exn : Type :=
| KeyError (key : string)
| TypeError (msg : string)
| ValueError (msg : string)
| FileNotFoundError (msg : string)
| BinasciiError (msg : string)
| HttpError (status : N) (uri reason details : string)
| OtherError (msg : string).

Inductive result (A : Type) : Type :=
| Ok (a : A)
| Raise (e : exn).
Arguments Ok {A} a.
Arguments Raise {A} e.


(** ** Python built-ins used by the script *)

Module Py.

Definition ord (c : ascii) : N := N_of_ascii c.
Definition chr (n : N) : ascii := ascii_of_N n.

(** Upper-case letters below 256: A-Z and the Latin-1 capitals (without
    the multiplication sign, 215). *)
Definition isupper (c : ascii) : bool :=
  let n := ord c in
  ((65 <=? n) && (n <=? 90) || (192 <=? n) && (n <=? 222) && negb (n =? 215))%N.

Definition lower_char (c : ascii) : ascii :=
  if isupper c then chr (ord c + 32) else c.

(** [s.lower()] *)
Fixpoint lower (s : string) : string :=
  match s with
  | EmptyString => EmptyString
  | String c t => String (lower_char c) (lower t)
  end.

(** The characters [str.strip()] removes: tab to carriage return, the four
    separators 28-31, space, NEL (133) and the no-break space (160). *)
Definition isspace (c : ascii) : bool :=
  let n := ord c in
  ((9 <=? n) && (n <=? 13) || (28 <=? n) && (n <=? 32) || (n =? 133) || (n =? 160))%N.

Fixpoint lstrip (s : string) : string :=
  match s with
  | EmptyString => EmptyString
  | String c t => if isspace c then lstrip t else s
  end.

Fixpoint rstrip (s : string) : string :=
  match s with
  | EmptyString => EmptyString
  | String c t =>
      match rstrip t with
      | EmptyString => if isspace c then EmptyString else String c EmptyString
      | r => String c r
      end
  end.

(** [s.strip()] *)
Definition strip (s : string) : string := rstrip (lstrip s).

(** [s.split(sep)] for a one-character separator: never an empty list. *)
Fixpoint split (sep : ascii) (s : string) : list string :=
  match s with
  | EmptyString => [EmptyString]
  | String c t =>
      if Ascii.eqb c sep then EmptyString :: split sep t
      else match split sep t with
           | [] => [String c EmptyString]
           | p :: ps => String c p :: ps
           end
  end.

(** [s.endswith(suf)] *)
Fixpoint endswith (s suf : string) : bool :=
  String.eqb s suf ||
  match s with
  | EmptyString => false
  | String _ t => endswith t suf
  end.

(** [s.replace(old, new)] for a one-character [old]. *)
Fixpoint replace (old : ascii) (new : string) (s : string) : string :=
  match s with
  | EmptyString => EmptyString
  | String c t =>
      if Ascii.eqb c old then new +:+ replace old new t
      else String c (replace old new t)
  end.

(** The two characters of the search language that need care, and the
    double quote. *)
Definition quote : ascii := "'"%char.
Definition backslash : ascii := "092"%char.
Definition dquote : ascii := "034"%char.

(** A text between double quotes, as the format [%s] between quotes
    gives it. *)
Definition quoted (s : string) : string :=
  String dquote (s +:+ String dquote EmptyString).

(** Truth value of a [str]: non-empty. *)
Definition truthy (s : string) : bool :=
  match s with EmptyString => false | String _ _ => true end.

(** [any(f(x) for x in l)] *)
Definition any {A} (f : A → bool) (l : list A) : bool := existsb f l.

(** [str(x)] of an optional value, [None] printing as its name. *)
Definition str_opt (o : option string) : string := default "None" o.

(** *** [base64.urlsafe_b64decode]

    The argument is a [str]: it must be ASCII, then [-] and [_] are read as
    [+] and [/], and [binascii.a2b_base64] decodes in its lenient mode:
    characters outside the alphabet are skipped, a complete run of padding
    ends the input, and an incomplete last group is an error. *)

Definition b64_value (c : ascii) : option N :=
  let n := ord c in
  if ((65 <=? n) && (n <=? 90))%N then Some (n - 65)%N
  else if ((97 <=? n) && (n <=? 122))%N then Some (n - 71)%N
  else if ((48 <=? n) && (n <=? 57))%N then Some (n + 4)%N
  else if ((n =? 43) || (n =? 45))%N then Some 62%N
  else if ((n =? 47) || (n =? 95))%N then Some 63%N
  else None.

Definition to_byte (n : N) : Byte.byte := byte_of_ascii (chr (N.land n 255)).

Fixpoint a2b_base64 (s : string) (quad_pos : nat) (leftchar : N) (pads : nat)
    (out : list Byte.byte) : result (list Byte.byte) :=
  match s with
  | EmptyString =>
      match quad_pos with
      | 0 => Ok out
      | 1 => Raise (BinasciiError
               ("Invalid base64-encoded string: number of data characters ("
                +:+ pretty (length out / 3 * 4 + 1)
                +:+ ") cannot be 1 more than a multiple of 4"))
      | _ => Raise (BinasciiError "Incorrect padding")
      end
  | String c t =>
      if Ascii.eqb c "="%char then
        if (2 <=? quad_pos) && (4 <=? quad_pos + S pads) then Ok out
        else a2b_base64 t quad_pos leftchar
               (if 2 <=? quad_pos then S pads else pads) out
      else
        match b64_value c with
        | None => a2b_base64 t quad_pos leftchar pads out
        | Some v =>
            match quad_pos with
            | 0 => a2b_base64 t 1 v 0 out
            | 1 => a2b_base64 t 2 (N.land v 15) 0
                     (out ++ [to_byte (N.lor (N.shiftl leftchar 2) (N.shiftr v 4))])
            | 2 => a2b_base64 t 3 (N.land v 3) 0
                     (out ++ [to_byte (N.lor (N.shiftl leftchar 4) (N.shiftr v 2))])
            | _ => a2b_base64 t 0 0%N 0
                     (out ++ [to_byte (N.lor (N.shiftl leftchar 6) v)])
            end
        end
  end.

Fixpoint isascii (s : string) : bool :=
  match s with
  | EmptyString => true
  | String c t => (ord c <? 128)%N && isascii t
  end.

Definition urlsafe_b64decode (s : string) : result (list Byte.byte) :=
  if isascii s then a2b_base64 s 0 0%N 0 []
  else Raise (ValueError "string argument should contain only ASCII characters").

End Py.

(** [str(e)], as the top-level handler prints it.  The text of a
    [KeyError] is the [repr] of the key; that of the client library's
    [HttpError] is its [repr], which names the status, the address asked and
    the reason, and the details when the answer had some. *)
Definition exn_str (e : exn) : string :=
  match e with
  | KeyError k => "'" +:+ k +:+ "'"
  | TypeError m | ValueError m | FileNotFoundError m
  | BinasciiError m | OtherError m => m
  | HttpError status uri reason details =>
      if Py.truthy details then
        "<HttpError " +:+ pretty status +:+ " when requesting " +:+ uri
        +:+ " returned " +:+ Py.quoted reason
        +:+ ". Details: " +:+ Py.quoted details +:+ ">"
      else if Py.truthy uri then
        "<HttpError " +:+ pretty status +:+ " when requesting " +:+ uri
        +:+ " returned " +:+ Py.quoted reason +:+ ">"
      else "<HttpError " +:+ pretty status +:+ " " +:+ Py.quoted reason +:+ ">"
  end.

(** ** Service data *)

(** What [users().messages()] returns, with the keys the script reads. *)
Record Body := { body_attachmentId : option string }.
Record Part := { part_filename : option string; part_body : option Body }.
Record Payload := { payload_parts : option (list Part) }.
Record Message := { message_payload : option Payload }.
Record Summary := { summary_id : option string }.
Record SearchResult := { result_messages : option (list Summary) }.
Record Attachment := { attachment_data : option string }.

(** The mail service: read only, any call may fail. *)
Record Gmail := {
  messages_list : string → result SearchResult;
  messages_get : string → result Message;
  attachments_get : string → string → result Attachment }.

(** An object of the storage service. *)
Record DriveFile := {
  file_id : string;
  file_name : string;
  file_mimeType : option string;
  file_parents : list string;
  file_trashed : bool;
  file_media : option (list Byte.byte) }.

(** What the storage service decides by itself.  A call fails when the
    service says so (network, quota, server error), which it may make depend
    on the request and on what it holds.  A query whose literals hold a
    backslash other than the one that escapes a quote is answered as the
    service reads it: neither the script nor its description says how. *)
Record DriveService := {
  create_fault : string → option string → list string → option (list Byte.byte)
                 → list DriveFile → option exn;
  list_fault : string → list DriveFile → option exn;
  odd_query : string → list DriveFile → result (list DriveFile) }.

(** OAuth credentials and the identity provider with the local files it
    needs. *)
Record Credentials := {
  creds_valid : bool;
  creds_expired : bool;
  creds_refresh_token : option string;
  creds_to_json : string }.

Record Identity := {
  path_exists : string → bool;
  from_authorized_user_file : string → result Credentials;
  creds_refresh : Credentials → result Credentials;
  run_local_server : string → result Credentials;
  write_file : string → string → result unit }.

(** [datetime.datetime.now()], the fields [strftime] reads here. *)
Record datetime := { dt_year : N; dt_month : N }.

(** What a run does to the outside, in order. *)
Inductive event : Type :=
| Print (line : string)
| LoadToken (path : string)
| RefreshToken
| OAuthFlow (client_secret_file : string)
| WriteFile (path : string) (content : string)
| GmailMessagesList (q : string)
| GmailMessagesGet (id : string)
| GmailAttachmentsGet (message_id attachment_id : string)
| DriveFilesCreate (name : string) (mimeType : option string)
    (parents : list string) (media : option (list Byte.byte))
| DriveFilesList (q : string).

(** ** The storage service *)

Module Drive.

Definition folder_mime : string := "application/vnd.google-apps.folder".

(** The type the script gives to every media body it uploads; being the
    same for all, the create call of the log does not repeat it. *)
Definition octet_stream : string := "application/octet-stream".

(** Ids are chosen by the service; here the next one counts the objects. *)
Definition fresh_id (d : list DriveFile) : string := "id" +:+ pretty (length d).

(** [files().create(...).execute()]: the call fails, or the object is
    added with the metadata of the request and a new id. *)
Definition create (drive : DriveService) (name : string) (mimeType : option string)
    (parents : list string) (media : option (list Byte.byte))
    (d : list DriveFile) : result string * list DriveFile :=
  match create_fault drive name mimeType parents media d with
  | Some e => (Raise e, d)
  | None =>
      let id := fresh_id d in
      (Ok id, d ++ [{| file_id := id; file_name := name;
                       file_mimeType := mimeType;
                       file_parents := parents; file_trashed := false;
                       file_media := media |}])
  end.

(** The search language of [files().list(q=...)], as far as the script
    relies on it: a string literal stands between single quotes, and inside
    it a backslash before a quote makes the quote part of the text.  A
    literal with a backslash before anything else is not read here. *)
Fixpoint read_literal (s : string) : option (string * string) :=
  match s with
  | EmptyString => None
  | String c t =>
      if Ascii.eqb c Py.quote then Some (EmptyString, t)
      else if Ascii.eqb c Py.backslash then
        match t with
        | String e t' =>
            if Ascii.eqb e Py.quote then
              '(lit, rest) ← read_literal t'; Some (String e lit, rest)
            else None
        | EmptyString => None
        end
      else '(lit, rest) ← read_literal t; Some (String c lit, rest)
  end.

Fixpoint expect (word s : string) : option string :=
  match word, s with
  | EmptyString, _ => Some s
  | String a w, String b t => if Ascii.eqb a b then expect w t else None
  | String _ _, EmptyString => None
  end.

(** The one form of query the script sends:
    ['<id>' in parents and name = '<name>' and trashed = false]. *)
Definition parse_query (q : string) : option (string * string) :=
  s1 ← expect "'" q;
  '(folder, s2) ← read_literal s1;
  s3 ← expect " in parents and name = '" s2;
  '(name, s4) ← read_literal s3;
  if String.eqb s4 " and trashed = false" then Some (folder, name) else None.

(** An object answers the query when it lies in the folder, has exactly
    that name and is not in the bin. *)
Definition matches (folder name : string) (f : DriveFile) : bool :=
  bool_decide (folder ∈ file_parents f) && String.eqb (file_name f) name
  && negb (file_trashed f).

(** [files().list(q=...).execute()]: the call fails, or the objects that
    answer the query are returned; a query that is not read here is left to
    the service. *)
Definition list_files (drive : DriveService) (q : string) (d : list DriveFile)
    : result (list DriveFile) :=
  match list_fault drive q d with
  | Some e => Raise e
  | None =>
      match parse_query q with
      | Some (folder, name) => Ok (List.filter (matches folder name) d)
      | None => odd_query drive q d
      end
  end.

(** A service that never fails and turns down the queries that are not
    read here. *)
Definition reliable : DriveService :=
  {| create_fault := λ _ _ _ _ _, None;
     list_fault := λ _ _, None;
     odd_query := λ _ _,
       Raise (HttpError 400
                "https://www.googleapis.com/drive/v3/files?alt=json"
                "Invalid Value" EmptyString) |}.

End Drive.

(** ** The monad of a run *)

Record outcome (A : Type) : Type := {
  res : result A;
  final : list DriveFile;
  log : list event }.
Arguments res {A} o.
Arguments final {A} o.
Arguments log {A} o.

Definition M (A : Type) : Type := list DriveFile → outcome A.

Definition ret {A} (a : A) : M A :=
  λ d, {| res := Ok a; final := d; log := [] |}.

Definition bind {A B} (m : M A) (f : A → M B) : M B :=
  λ d,
    let o := m d in
    match res o with
    | Ok a =>
        let o' := f a (final o) in
        {| res := res o'; final := final o'; log := log o ++ log o' |}
    | Raise e => {| res := Raise e; final := final o; log := log o |}
    end.

Declare Scope run_scope.
Delimit Scope run_scope with run.
Notation "x <- m ;; k" := (bind m (λ x, k))
  (at level 100, m at next level, right associativity) : run_scope.
Notation "m ;; k" := (bind m (λ _, k))
  (at level 100, right associativity) : run_scope.
Open Scope run_scope.

Definition raise {A} (e : exn) : M A :=
  λ d, {| res := Raise e; final := d; log := [] |}.

Definition lift {A} (r : result A) : M A :=
  match r with Ok a => ret a | Raise e => raise e end.

Definition emit (ev : event) : M unit :=
  λ d, {| res := Ok (); final := d; log := [ev] |}.

Definition print (line : string) : M unit := emit (Print line).

(** A call to a service that keeps no state of interest: the request is
    logged, the answer read off. *)
Definition call {A} (ev : event) (r : result A) : M A := emit ev ;; lift r.

(** [d[key]] *)
Definition subscript {A} (o : option A) (key : string) : M A :=
  match o with Some a => ret a | None => raise (KeyError key) end.

(** [for x in l: body] *)
Fixpoint for_each {A} (l : list A) (body : A → M unit) : M unit :=
  match l with
  | [] => ret ()
  | x :: l' => body x ;; for_each l' body
  end.

(** [try: m except Exception as e: h] *)
Definition try_except {A} (m : M A) (h : exn → M A) : M A :=
  λ d,
    let o := m d in
    match res o with
    | Ok a => o
    | Raise e =>
        let o' := h e (final o) in
        {| res := res o'; final := final o'; log := log o ++ log o' |}
    end.

(** [service.files().create(...).execute()], answering the new id or
    raising the error of the service. *)
Definition files_create (drive : DriveService) (name : string)
    (mimeType : option string) (parents : list string)
    (media : option (list Byte.byte)) : M string :=
  λ d,
    let '(r, d') := Drive.create drive name mimeType parents media d in
    {| res := r; final := d';
       log := [DriveFilesCreate name mimeType parents media] |}.

(** [service.files().list(q=...).execute().get('files', [])] *)
Definition files_list (drive : DriveService) (q : string) : M (list DriveFile) :=
  λ d, {| res := Drive.list_files drive q d; final := d;
          log := [DriveFilesList q] |}.

(** ** The script *)

Section Script.

(** The process environment read by [os.getenv], the clock, the identity
    provider and the mailbox of the run. *)
Variable environ : gmap string string.
Variable now : datetime.
Variable identity : Identity.
Variable gmail : Gmail.
Variable drive : DriveService.

Definition getenv (key : string) : option string := environ !! key.

(** [os.path.exists(path)]: [os.stat] rejects [None] with a [TypeError]. *)
Definition os_path_exists (path : option string) : M bool :=
  match path with
  | Some p => ret (path_exists identity p)
  | None =>
      raise (TypeError
        "stat: path should be string, bytes, os.PathLike or integer, not NoneType")
  end.

(** The [else] branch of the refresh test: the interactive flow, which needs
    the client secret file. *)
Definition oauth_flow (client_secret_file : option string) : M Credentials :=
  print "Fetching new tokens via OAuth flow..." ;;
  let secret := default EmptyString client_secret_file in
  if negb (Py.truthy secret) || negb (path_exists identity secret) then
    raise (FileNotFoundError
      ("Client secret file not found at: " +:+ Py.str_opt client_secret_file))
  else call (OAuthFlow secret) (run_local_server identity secret).

Definition get_credentials : M Credentials :=
  let token_file := getenv "GMAIL_CREDENTIALS_PATH" in
  let client_secret_file := getenv "CLIENT_SECRET_PATH" in
  token_exists <- os_path_exists token_file ;;
  let token_path := default EmptyString token_file in
  creds <- (if token_exists : bool
            then c <- call (LoadToken token_path)
                        (from_authorized_user_file identity token_path) ;;
                 ret (Some c)
            else ret None) ;;
  let renew (refreshable : bool) (old : Credentials) : M Credentials :=
    c' <- (if refreshable
           then print "Refreshing access token..." ;;
                call RefreshToken (creds_refresh identity old)
           else oauth_flow client_secret_file) ;;
    call (WriteFile token_path (creds_to_json c'))
         (write_file identity token_path (creds_to_json c')) ;;
    ret c' in
  match creds with
  | Some c =>
      if creds_valid c then ret c
      else renew (creds_expired c
                  && Py.truthy (default EmptyString (creds_refresh_token c))) c
  | None =>
      renew false {| creds_valid := false; creds_expired := false;
                     creds_refresh_token := None; creds_to_json := EmptyString |}
  end.

(** [strftime] with the format [%m-%Y]: the month on two digits, a dash,
    the year in decimal. *)
Definition strftime_m_Y (t : datetime) : string :=
  (if (dt_month t <? 10)%N then "0" +:+ pretty (dt_month t) else pretty (dt_month t))
  +:+ "-" +:+ pretty (dt_year t).

Definition create_drive_folder : M string :=
  let folder_name := strftime_m_Y now in
  folder <- files_create drive folder_name (Some Drive.folder_mime) [] None ;;
  print ("Created folder '" +:+ folder_name
         +:+ "' in Google Drive with ID: " +:+ folder) ;;
  ret folder.

Definition file_exists_in_drive (file_name folder_id : string) : M bool :=
  let safe_name :=
    Py.replace Py.quote (String Py.backslash (String Py.quote EmptyString)) file_name in
  let query := "'" +:+ folder_id +:+ "' in parents and name = '" +:+ safe_name
               +:+ "' and trashed = false" in
  files <- files_list drive query ;;
  ret (0 <? length files).

Definition upload_to_drive (file_name : string) (file_data : list Byte.byte)
    (folder_id : string) : M unit :=
  file <- files_create drive file_name None [folder_id] (Some file_data) ;;
  print ("Uploaded " +:+ file_name +:+ " to Google Drive with ID: " +:+ file).

(** The list comprehension over [extensions_env.split(',')]. *)
Definition allowed_extensions (extensions_env : string) : list string :=
  map (λ ext, Py.lower (Py.strip ext))
      (List.filter (λ ext, Py.truthy (Py.strip ext)) (Py.split "," extensions_env)).

(** The test of the attachment filter:
    [any(filename.lower().endswith(ext) for ext in allowed_extensions)]. *)
Definition extension_allowed (filename : string) (allowed : list string) : bool :=
  Py.any (λ ext, Py.endswith (Py.lower filename) ext) allowed.

(** The body of the loop over the parts of one message.  [continue] ends
    the body; the attachment id is the one whose presence was tested. *)
Definition part_body_of_loop (allowed : list string) (folder_id msg_id : string)
    (part : Part) : M unit :=
  let filename := default EmptyString (part_filename part) in
  if Py.truthy filename then
    body <- subscript (part_body part) "body" ;;
    match body_attachmentId body with
    | Some attachment_id =>
        if negb (extension_allowed filename allowed) then ret ()
        else
          present <- file_exists_in_drive filename folder_id ;;
          if present : bool then
            print ("File '" +:+ filename
                   +:+ "' already exists in Drive folder, skipping.")
          else
            attachment <- call (GmailAttachmentsGet msg_id attachment_id)
                            (attachments_get gmail msg_id attachment_id) ;;
            data <- subscript (attachment_data attachment) "data" ;;
            file_data <- lift (Py.urlsafe_b64decode data) ;;
            upload_to_drive filename file_data folder_id ;;
            print ("Success: " +:+ filename)
    | None => ret ()
    end
  else ret ().

(** The body of the loop over the messages found. *)
Definition message_body_of_loop (allowed : list string) (folder_id : string)
    (msg : Summary) : M unit :=
  msg_id <- subscript (summary_id msg) "id" ;;
  message <- call (GmailMessagesGet msg_id) (messages_get gmail msg_id) ;;
  match message_payload message with
  | Some payload =>
      match payload_parts payload with
      | Some parts => for_each parts (part_body_of_loop allowed folder_id msg_id)
      | None => ret ()
      end
  | None => ret ()
  end.

Definition download_attachments (query drive_folder_id : string) : M unit :=
  let extensions_env := default EmptyString (getenv "ALLOWED_EXTENSIONS") in
  let allowed := allowed_extensions extensions_env in
  print ("Searching for messages with query: " +:+ query) ;;
  results <- call (GmailMessagesList query) (messages_list gmail query) ;;
  let messages := default [] (result_messages results) in
  match messages with
  | [] => print "No messages found."
  | _ :: _ =>
      print ("Found " +:+ pretty (length messages) +:+ " messages. Processing...") ;;
      for_each messages (message_body_of_loop allowed drive_folder_id)
  end.

Definition main : M unit :=
  try_except
    (creds <- get_credentials ;;
     drive_folder_id <- create_drive_folder ;;
     let query := default EmptyString (getenv "GMAIL_SEARCH_QUERY") in
     if negb (Py.truthy query) then
       print "Error: GMAIL_SEARCH_QUERY not found in .env file."
     else download_attachments query drive_folder_id)
    (λ e, print ("An error occurred: " +:+ exn_str e)).

End Script.

(** ** What is observed of a run *)

(** An upload is a [files().create] with a media body; a folder creation has
    the folder type and none. *)
Definition upload_of (ev : event) : option (string * list string * list Byte.byte) :=
  match ev with
  | DriveFilesCreate name _ parents (Some data) => Some (name, parents, data)
  | _ => None
  end.

Definition uploads (l : list event) : list (string * list string * list Byte.byte) :=
  omap upload_of l.

Definition upload_names (l : list event) : list string :=
  map (λ u, u.1.1) (uploads l).


Definition is_gmail_call (ev : event) : bool :=
  match ev with
  | GmailMessagesList _ | GmailMessagesGet _ | GmailAttachmentsGet _ _ => true
  | _ => false
  end.

Definition is_drive_call (ev : event) : bool :=
  match ev with
  | DriveFilesCreate _ _ _ _ | DriveFilesList _ => true
  | _ => false
  end.

Definition no_upload (ev : event) : Prop := upload_of ev = None.

(** The events of credential acquisition, and those of the sync into a
    given folder. *)
Definition auth_event (ev : event) : Prop :=
  match ev with
  | Print _ | LoadToken _ | RefreshToken | OAuthFlow _ | WriteFile _ _ => True
  | _ => False
  end.

Definition sync_event (folder_id : string) (ev : event) : Prop :=
  match ev with
  | Print _ | GmailMessagesList _ | GmailMessagesGet _
  | GmailAttachmentsGet _ _ | DriveFilesList _ => True
  | DriveFilesCreate _ mimeType parents media =>
      mimeType = None ∧ parents = [folder_id] ∧ is_Some media
  | _ => False
  end.

(** An action that leaves the Drive as it is and logs only events of [P]. *)
Definition quiet_on {A} (P : event → Prop) (m : M A) : Prop :=
  ∀ d, final (m d) = d ∧ Forall P (log (m d)).

(** An action that logs only events of [P]. *)
Definition logs_only {A} (P : event → Prop) (m : M A) : Prop :=
  ∀ d, Forall P (log (m d)).



Definition get_of (ev : event) : option string :=
  match ev with GmailMessagesGet id => Some id | _ => None end.

Definition fetch_of (ev : event) : option (string * string) :=
  match ev with GmailAttachmentsGet m a => Some (m, a) | _ => None end.

(** A candidate: a part with a file name and an attachment reference,
    together with the message that owns it. *)
Record candidate := {
  cand_message : string;
  cand_filename : string;
  cand_attachment : string }.

Definition candidate_of (msg_id : string) (part : Part) : option candidate :=
  match part_filename part, part_body part with
  | Some f, Some b =>
      if Py.truthy f then
        a ← body_attachmentId b;
        Some {| cand_message := msg_id; cand_filename := f; cand_attachment := a |}
      else None
  | _, _ => None
  end.

(** The parts the mail service returns for a message of the search result,
    and the candidates of a whole result, both in the order of the service. *)
Definition parts_of (gmail : Gmail) (msg_id : string) : list Part :=
  match messages_get gmail msg_id with
  | Ok m => default [] (message_payload m ≫= payload_parts)
  | Raise _ => []
  end.

Definition candidates (gmail : Gmail) (messages : list Summary) : list candidate :=
  flat_map (λ msg,
    match summary_id msg with
    | Some id => omap (candidate_of id) (parts_of gmail id)
    | None => []
    end) messages.

(** What an upload issued for a part carries: the name of the part, the
    folder of the run, and the bytes that decode the [data] field of the
    attachment fetched for it.  Other events are left free. *)
Definition carries_payload (gmail : Gmail) (folder_id msg_id : string) (part : Part)
    (ev : event) : Prop :=
  match ev with
  | DriveFilesCreate name mimeType parents (Some data) =>
      ∃ attachment_id attachment payload,
        candidate_of msg_id part
        = Some {| cand_message := msg_id; cand_filename := name;
                  cand_attachment := attachment_id |}
        ∧ attachments_get gmail msg_id attachment_id = Ok attachment
        ∧ attachment_data attachment = Some payload
        ∧ Py.urlsafe_b64decode payload = Ok data
        ∧ mimeType = None ∧ parents = [folder_id]
  | _ => True
  end.

(** Whether the folder holds a live object of that exact name. *)
Definition present (d : list DriveFile) (folder name : string) : bool :=
  existsb (Drive.matches folder name) d.

(** The uploads the invariant of the sync prescribes: going through the
    candidates in order, one is taken when its name passes the filter and no
    object of that name is in the folder at that moment; [taken] lists the
    names in the folder. *)
Fixpoint expected_uploads (allowed : list string) (cands : list string)
    (taken : list string) : list string :=
  match cands with
  | [] => []
  | name :: rest =>
      if extension_allowed name allowed && negb (bool_decide (name ∈ taken))
      then name :: expected_uploads allowed rest (name :: taken)
      else expected_uploads allowed rest taken
  end.

(** An outcome whose uploads are the prescribed ones for a list of candidate
    names, as far as it went: [taken] stands for the names in the folder
    before, and after a normal end for those in it then. *)
Definition uploads_as_expected (allowed : list string) (folder : string)
    (names : list string) (d : list DriveFile) (o : outcome unit) : Prop :=
  ∀ taken,
    (∀ n, present d folder n = true ↔ n ∈ taken) →
    upload_names (log o) `prefix_of` expected_uploads allowed names taken
    ∧ (res o = Ok () →
       upload_names (log o) = expected_uploads allowed names taken
       ∧ ∀ n, present (final o) folder n = true
              ↔ n ∈ rev (upload_names (log o)) ++ taken).

(** The names of the candidates of a part and of a message. *)
Definition part_names (msg_id : string) (part : Part) : list string :=
  from_option (λ c, [cand_filename c]) [] (candidate_of msg_id part).

Definition message_names (gmail : Gmail) (msg : Summary) : list string :=
  match summary_id msg with
  | Some id => flat_map (part_names id) (parts_of gmail id)
  | None => []
  end.

(** The Drive after the create calls of a log, made in order on a Drive. *)
Fixpoint replay (drive : DriveService) (d : list DriveFile) (l : list event)
    : list DriveFile :=
  match l with
  | [] => d
  | DriveFilesCreate name mimeType parents media :: l' =>
      replay drive (Drive.create drive name mimeType parents media d).2 l'
  | _ :: l' => replay drive d l'
  end.

(** An action that changes the Drive through its logged create calls only. *)
Definition replays {A} (drive : DriveService) (m : M A) : Prop :=
  ∀ d, final (m d) = replay drive d (log (m d)).

(** What the Drive keeps of an upload, and what an upload call sends. *)
Definition stored_as (f : DriveFile) : string * list string * option (list Byte.byte) :=
  (file_name f, file_parents f, file_media f).

Definition sent_as (u : string * list string * list Byte.byte)
    : string * list string * option (list Byte.byte) :=
  (u.1.1, u.1.2, Some u.2).

(** An action that adds to the Drive the objects of its upload calls, in
    order, and nothing else: all of them when it ends without exception, and
    otherwise the first of them. *)
Definition stores_uploads {A} (m : M A) : Prop :=
  ∀ d, ∃ added,
    final (m d) = d ++ added
    ∧ map stored_as added `prefix_of` map sent_as (uploads (log (m d)))
    ∧ ((∃ a, res (m d) = Ok a) →
       map stored_as added = map sent_as (uploads (log (m d))))
    ∧ Forall (λ f, file_trashed f = false) added.

(** The names of the live objects of a folder. *)
Definition live_names (d : list DriveFile) (folder : string) : list string :=
  map file_name
    (List.filter (λ f, bool_decide (folder ∈ file_parents f) && negb (file_trashed f)) d).

(** The query the duplicate guard sends for a name. *)
Definition guard_query (folder_id file_name : string) : string :=
  "'" +:+ folder_id +:+ "' in parents and name = '"
  +:+ Py.replace Py.quote (String Py.backslash (String Py.quote EmptyString)) file_name
  +:+ "' and trashed = false".

(** The steps of a sync that the order of processing is read from: a
    message opened, a name looked up in the folder, an attachment fetched, a
    file uploaded. *)
Inductive step :=
| Opened (msg_id : string)
| Checked (q : string)
| Fetched (msg_id attachment_id : string)
| Uploaded (name : string).

Definition step_of (ev : event) : option step :=
  match ev with
  | GmailMessagesGet id => Some (Opened id)
  | DriveFilesList q => Some (Checked q)
  | GmailAttachmentsGet m a => Some (Fetched m a)
  | DriveFilesCreate name _ _ (Some _) => Some (Uploaded name)
  | _ => None
  end.

Definition steps (l : list event) : list step := omap step_of l.

(** The steps that do not depend on what the folder holds or on how a fetch
    goes: opening a message and looking a name up. *)
Definition is_visit (s : step) : bool :=
  match s with
  | Opened _ | Checked _ => true
  | Fetched _ _ | Uploaded _ => false
  end.

Definition visits (l : list event) : list step := List.filter is_visit (steps l).

(** The steps in the order of the service: the messages as the search
    lists them and, in each, its parts as they are listed; a part counts
    when it is a candidate whose name passes the filter. *)
Definition candidate_steps (folder_id : string) (c : candidate) : list step :=
  [Checked (guard_query folder_id (cand_filename c));
   Fetched (cand_message c) (cand_attachment c);
   Uploaded (cand_filename c)].

Definition part_schedule (allowed : list string) (folder_id msg_id : string)
    (part : Part) : list step :=
  match candidate_of msg_id part with
  | Some c =>
      if extension_allowed (cand_filename c) allowed then candidate_steps folder_id c
      else []
  | None => []
  end.

Definition message_schedule (gmail : Gmail) (allowed : list string)
    (folder_id msg_id : string) : list step :=
  Opened msg_id
  :: flat_map (part_schedule allowed folder_id msg_id) (parts_of gmail msg_id).

Definition schedule (gmail : Gmail) (allowed : list string) (folder_id : string)
    (messages : list Summary) : list step :=
  flat_map (λ msg,
    match summary_id msg with
    | Some id => message_schedule gmail allowed folder_id id
    | None => []
    end) messages.

(** File names and ids the search language carries unchanged through the
    script's quoting. *)
Fixpoint no_backslash (s : string) : bool :=
  match s with
  | EmptyString => true
  | String c t => negb (Ascii.eqb c Py.backslash) && no_backslash t
  end.

Fixpoint no_quote (s : string) : bool :=
  match s with
  | EmptyString => true
  | String c t => negb (Ascii.eqb c Py.quote) && no_quote t
  end.

Definition plain_id (s : string) : bool := no_backslash s && no_quote s.

(** Strings made of white space only, and configuration values made of
    commas and white space only. *)
Fixpoint blank (s : string) : bool :=
  match s with
  | EmptyString => true
  | String c t => Py.isspace c && blank t
  end.

Fixpoint commas_and_blanks (s : string) : bool :=
  match s with
  | EmptyString => true
  | String c t => (Ascii.eqb c ","%char || Py.isspace c) && commas_and_blanks t
  end.

Fixpoint no_comma (s : string) : bool :=
  match s with
  | EmptyString => true
  | String c t => negb (Ascii.eqb c ","%char) && no_comma t
  end.

(** [sep.join(l)] *)
Fixpoint join (sep : string) (l : list string) : string :=
  match l with
  | [] => EmptyString
  | [s] => s
  | s :: l' => s +:+ sep +:+ join sep l'
  end.

(** ** Sample worlds *)

Module Sample.

Definition not_found : exn :=
  HttpError 404 "https://gmail.googleapis.com/gmail/v1/users/me/messages?alt=json"
    "Requested entity was not found." EmptyString.

Definition unavailable : exn :=
  HttpError 503 "https://gmail.googleapis.com/gmail/v1/users/me/messages?alt=json"
    "Service Unavailable" EmptyString.

Definition pdf_part (name att : string) : Part :=
  {| part_filename := Some name;
     part_body := Some {| body_attachmentId := Some att |} |}.

Definition message_of (parts : list Part) : Message :=
  {| message_payload := Some {| payload_parts := Some parts |} |}.

Definition summaries (ids : list string) : SearchResult :=
  {| result_messages := Some (map (λ i, {| summary_id := Some i |}) ids) |}.

(** Two messages: an invoice in the first, notes in the second. *)
Definition mailbox : Gmail :=
  {| messages_list := λ _, Ok (summaries ["m1"; "m2"]);
     messages_get := λ id,
       if String.eqb id "m1" then Ok (message_of [pdf_part "invoice.pdf" "a1"])
       else if String.eqb id "m2" then Ok (message_of [pdf_part "notes.txt" "a2"])
       else Raise not_found;
     attachments_get := λ _ _, Ok {| attachment_data := Some "aGVsbG8=" |} |}.

(** Several parts in each message, a name that comes back in the second. *)
Definition several : Gmail :=
  {| messages_list := λ _, Ok (summaries ["m1"; "m2"]);
     messages_get := λ id,
       if String.eqb id "m1" then
         Ok (message_of [pdf_part "first.pdf" "a1"; pdf_part "notes.txt" "a2";
                         pdf_part "last.pdf" "a3"])
       else if String.eqb id "m2" then
         Ok (message_of [pdf_part "invoice.pdf" "a4"; pdf_part "first.pdf" "a5"])
       else Raise not_found;
     attachments_get := λ _ _, Ok {| attachment_data := Some "aGVsbG8=" |} |}.

(** A Drive that is full: every create call fails. *)
Definition full : DriveService :=
  {| create_fault := λ _ _ _ _ _,
       Some (HttpError 403 "https://www.googleapis.com/upload/drive/v3/files?alt=json"
               "The user's Drive storage quota has been exceeded." EmptyString);
     list_fault := λ _ _, None;
     odd_query := odd_query Drive.reliable |}.

(** The same file name in both messages. *)
Definition twice (name : string) : Gmail :=
  {| messages_list := λ _, Ok (summaries ["m1"; "m2"]);
     messages_get := λ id,
       if String.eqb id "m1" then Ok (message_of [pdf_part name "a1"])
       else if String.eqb id "m2" then Ok (message_of [pdf_part name "a2"])
       else Raise not_found;
     attachments_get := λ _ _, Ok {| attachment_data := Some "aGVsbG8=" |} |}.


(** A part that names a file but has no body, between two invoices. *)
Definition bodiless : Part :=
  {| part_filename := Some "broken.pdf"; part_body := None |}.

Definition with_bodiless_part : Gmail :=
  {| messages_list := λ _, Ok (summaries ["m1"; "m2"]);
     messages_get := λ id,
       if String.eqb id "m1" then
         Ok (message_of [pdf_part "first.pdf" "a1"; bodiless; pdf_part "last.pdf" "a3"])
       else if String.eqb id "m2" then Ok (message_of [pdf_part "invoice.pdf" "a2"])
       else Raise not_found;
     attachments_get := λ _ _, Ok {| attachment_data := Some "aGVsbG8=" |} |}.

(** One invoice whose attachment cannot be fetched. *)
Definition unreachable : Gmail :=
  {| messages_list := λ _, Ok (summaries ["m1"]);
     messages_get := λ _, Ok (message_of [pdf_part "invoice.pdf" "a1"]);
     attachments_get := λ _ _, Raise unavailable |}.

Definition env_pdf : gmap string string :=
  {[ "ALLOWED_EXTENSIONS" := ".pdf, .JPG" ]}.

Definition env_full : gmap string string :=
  <[ "GMAIL_SEARCH_QUERY" := "has:attachment" ]>
  (<[ "GMAIL_CREDENTIALS_PATH" := "token.json" ]> env_pdf).


Definition good_creds : Credentials :=
  {| creds_valid := true; creds_expired := false;
     creds_refresh_token := Some "r"; creds_to_json := "{}" |}.

Definition signed_in : Identity :=
  {| path_exists := λ _, true;
     from_authorized_user_file := λ _, Ok good_creds;
     creds_refresh := λ c, Ok c;
     run_local_server := λ _, Ok good_creds;
     write_file := λ _ _, Ok () |}.

(** A token file with expired credentials that can be refreshed. *)
Definition stale_creds : Credentials :=
  {| creds_valid := false; creds_expired := true;
     creds_refresh_token := Some "r"; creds_to_json := "{old}" |}.

Definition returning : Identity :=
  {| path_exists := λ _, true;
     from_authorized_user_file := λ _, Ok stale_creds;
     creds_refresh := λ _, Ok good_creds;
     run_local_server := λ _, Ok good_creds;
     write_file := λ _ _, Ok () |}.

(** No token file and no client secret file. *)
Definition first_time : Identity :=
  {| path_exists := λ _, false;
     from_authorized_user_file := λ _, Raise (FileNotFoundError "token.json");
     creds_refresh := λ c, Ok c;
     run_local_server := λ _, Ok good_creds;
     write_file := λ _ _, Ok () |}.

Definition november : datetime := {| dt_year := 2026; dt_month := 11 |}.

(** A name with two backslashes in a row. *)
Definition slashed : string :=
  String "a" (String Py.backslash (String Py.backslash "b.pdf")).

End Sample.


(** * Properties *)

(** ** Strings *)

Section Strings.

Lemma append_cons c s t : String c s +:+ t = String c (s +:+ t).
Proof. reflexivity. Qed.

Lemma append_empty_l s : EmptyString +:+ s = s.
Proof. reflexivity. Qed.

Lemma append_empty_r s : s +:+ EmptyString = s.
Proof. induction s as [|c s IH]; [done|]. by rewrite append_cons, IH. Qed.

Lemma append_assoc s t u : (s +:+ t) +:+ u = s +:+ (t +:+ u).
Proof. induction s as [|c s IH]; [done|]. by rewrite !append_cons, IH. Qed.

(** [endswith] decides that the string is some prefix followed by the
    suffix. *)
Lemma endswith_cons c s suf :
  Py.endswith (String c s) suf = String.eqb (String c s) suf || Py.endswith s suf.
Proof. reflexivity. Qed.

Lemma endswith_spec s suf : Py.endswith s suf = true ↔ ∃ pre, s = pre +:+ suf.
Proof.
  induction s as [|c s IH].
  - change (Py.endswith EmptyString suf) with (String.eqb EmptyString suf || false).
    rewrite orb_false_r, String.eqb_eq. split.
    + intros <-. by exists EmptyString.
    + intros [[|a pre] H]; [done|]. by rewrite append_cons in H.
  - rewrite endswith_cons, orb_true_iff, String.eqb_eq, IH. split.
    + intros [<-|[pre ->]]; [by exists EmptyString|].
      by exists (String c pre).
    + intros [[|a pre] H]; [by left|].
      rewrite append_cons in H. injection H as -> ->. right. by exists pre.
Qed.

Lemma lower_char_idemp c : Py.lower_char (Py.lower_char c) = Py.lower_char c.
Proof. by destruct c as [[] [] [] [] [] [] [] []]. Qed.

Lemma lower_idemp s : Py.lower (Py.lower s) = Py.lower s.
Proof. induction s as [|c s IH]; [done|]. simpl. by rewrite lower_char_idemp, IH. Qed.

Lemma lower_truthy s : Py.truthy (Py.lower s) = Py.truthy s.
Proof. by destruct s. Qed.

Lemma lstrip_blank s : blank s = true → Py.lstrip s = EmptyString.
Proof.
  induction s as [|c s IH]; [done|]. simpl.
  intros [Hc Hs]%andb_true_iff. rewrite Hc. auto.
Qed.

Lemma strip_blank s : blank s = true → Py.strip s = EmptyString.
Proof. intros H. unfold Py.strip. by rewrite lstrip_blank. Qed.

Lemma rstrip_empty_blank s : Py.rstrip s = EmptyString → blank s = true.
Proof.
  induction s as [|c s IH]; [done|]. simpl.
  destruct (Py.rstrip s) eqn:E; [|done].
  destruct (Py.isspace c); [|done]. auto.
Qed.

Lemma lstrip_blank_inv s : blank (Py.lstrip s) = true → blank s = true.
Proof.
  induction s as [|c s IH]; [done|]. simpl.
  destruct (Py.isspace c) eqn:E; [auto|]. simpl. by rewrite E.
Qed.

(** [strip] answers the empty string exactly on blank strings. *)
Lemma strip_empty_iff s : Py.strip s = EmptyString ↔ blank s = true.
Proof.
  split; [|apply strip_blank].
  intros H. by apply lstrip_blank_inv, rstrip_empty_blank.
Qed.

Lemma split_not_nil sep s : Py.split sep s ≠ [].
Proof.
  destruct s as [|c s]; [done|]. simpl.
  destruct (Ascii.eqb c sep); [done|]. by destruct (Py.split sep s).
Qed.

(** Joining the pieces with the separator gives the string back, and no
    piece holds a comma: [split] cuts at every comma and nowhere else. *)
Lemma join_split s : join "," (Py.split "," s) = s.
Proof.
  induction s as [|c s IH]; [done|]. simpl.
  destruct (Ascii.eqb_spec c ","%char) as [->|Hc].
  - pose proof (split_not_nil ","%char s) as Hne.
    destruct (Py.split "," s) as [|p ps]; [done|].
    change (join "," (EmptyString :: p :: ps))
      with (String ","%char (join "," (p :: ps))).
    by rewrite IH.
  - pose proof (split_not_nil ","%char s) as Hne.
    destruct (Py.split "," s) as [|p ps]; [done|].
    destruct ps as [|p' ps].
    + simpl in *. by rewrite IH.
    + change (join "," (String c p :: p' :: ps))
        with (String c (join "," (p :: p' :: ps))).
      by rewrite IH.
Qed.

Lemma split_no_comma s : Forall (λ p, no_comma p = true) (Py.split "," s).
Proof.
  induction s as [|c s IH]; [by repeat constructor|]. simpl.
  destruct (Ascii.eqb c ","%char) eqn:Hc; [by constructor|].
  destruct (Py.split "," s) as [|p ps]; [by repeat constructor; simpl; rewrite Hc|].
  inversion IH; subst. constructor; [|done]. simpl. by rewrite Hc.
Qed.

Lemma split_blank s :
  commas_and_blanks s = true → Forall (λ p, blank p = true) (Py.split "," s).
Proof.
  induction s as [|c s IH]; [by repeat constructor|]. simpl.
  intros [Hc Hs]%andb_true_iff. specialize (IH Hs).
  destruct (Ascii.eqb c ","%char) eqn:E; [by constructor|].
  simpl in Hc.
  destruct (Py.split "," s) as [|p ps]; [by repeat constructor; simpl; rewrite Hc|].
  inversion IH; subst. constructor; [|done]. simpl. by rewrite Hc.
Qed.

End Strings.


(** ** The monad of a run *)

Lemma outcome_eta {A} (o : outcome A) :
  {| res := res o; final := final o; log := log o |} = o.
Proof. by destruct o. Qed.

Section Monad.

Context {A B : Type}.

Lemma bind_ok (m : M A) (f : A → M B) d a :
  res (m d) = Ok a →
  bind m f d = {| res := res (f a (final (m d)));
                  final := final (f a (final (m d)));
                  log := log (m d) ++ log (f a (final (m d))) |}.
Proof. intros H. unfold bind. by rewrite H. Qed.

Lemma bind_raise (m : M A) (f : A → M B) d e :
  res (m d) = Raise e →
  bind m f d = {| res := Raise e; final := final (m d); log := log (m d) |}.
Proof. intros H. unfold bind. by rewrite H. Qed.

Lemma bind_ret (a : A) (f : A → M B) d : bind (ret a) f d = f a d.
Proof. unfold bind, ret. simpl. apply outcome_eta. Qed.

End Monad.

Lemma bind_raise_now {A B} (e : exn) (f : A → M B) d : bind (raise e) f d = raise e d.
Proof. reflexivity. Qed.

Lemma bind_emit {B} ev (f : unit → M B) d :
  bind (emit ev) f d =
    {| res := res (f () d); final := final (f () d); log := ev :: log (f () d) |}.
Proof. reflexivity. Qed.

Lemma bind_call_ok {A B} ev (a : A) (f : A → M B) d :
  bind (call ev (Ok a)) f d =
    {| res := res (f a d); final := final (f a d); log := ev :: log (f a d) |}.
Proof. reflexivity. Qed.

Lemma bind_call_raise {A B} ev e (f : A → M B) d :
  bind (call ev (Raise e)) f d = {| res := Raise e; final := d; log := [ev] |}.
Proof. reflexivity. Qed.

Lemma bind_lift_ok {A B} (a : A) (f : A → M B) d : bind (lift (Ok a)) f d = f a d.
Proof. apply (bind_ret a f d). Qed.

Lemma bind_subscript_some {A B} (a : A) k (f : A → M B) d :
  bind (subscript (Some a) k) f d = f a d.
Proof. apply (bind_ret a f d). Qed.

Lemma bind_subscript_none {A B} k (f : A → M B) d :
  bind (subscript None k) f d = raise (KeyError k) d.
Proof. reflexivity. Qed.

Lemma outcome_eq {A} (o1 o2 : outcome A) :
  res o1 = res o2 → final o1 = final o2 → log o1 = log o2 → o1 = o2.
Proof. destruct o1, o2; simpl; by intros -> -> ->. Qed.

Section Loops.

Context {A : Type} (body : A → M unit).

Lemma for_each_cons_ok x l d :
  res (body x d) = Ok () →
  for_each (x :: l) body d =
    {| res := res (for_each l body (final (body x d)));
       final := final (for_each l body (final (body x d)));
       log := log (body x d) ++ log (for_each l body (final (body x d))) |}.
Proof. intros H. simpl. by rewrite (bind_ok _ _ _ ()). Qed.

Lemma for_each_cons_raise x l d e :
  res (body x d) = Raise e →
  for_each (x :: l) body d =
    {| res := Raise e; final := final (body x d); log := log (body x d) |}.
Proof. intros H. simpl. by rewrite (bind_raise _ _ _ e). Qed.

(** A loop over [l1 ++ l2] runs [l1], then, unless that raised, [l2] from
    where [l1] left the Drive. *)
Lemma for_each_app_ok l1 l2 d :
  res (for_each l1 body d) = Ok () →
  for_each (l1 ++ l2) body d =
    {| res := res (for_each l2 body (final (for_each l1 body d)));
       final := final (for_each l2 body (final (for_each l1 body d)));
       log := log (for_each l1 body d)
              ++ log (for_each l2 body (final (for_each l1 body d))) |}.
Proof.
  revert d. induction l1 as [|x l1 IH]; intros d H.
  - simpl. by rewrite outcome_eta.
  - rewrite <-app_comm_cons.
    destruct (res (body x d)) as [[]|e] eqn:Hx.
    + rewrite !for_each_cons_ok in * by done. simpl in H.
      rewrite IH by done. simpl. by rewrite app_assoc.
    + rewrite for_each_cons_raise with (e := e) in H by done. done.
Qed.

Lemma for_each_app_raise l1 l2 d e :
  res (for_each l1 body d) = Raise e →
  for_each (l1 ++ l2) body d = for_each l1 body d.
Proof.
  revert d. induction l1 as [|x l1 IH]; intros d H; [done|].
  rewrite <-app_comm_cons.
  destruct (res (body x d)) as [[]|e'] eqn:Hx.
  - rewrite !for_each_cons_ok in * by done. simpl in H.
    by rewrite IH.
  - by rewrite !for_each_cons_raise with (e := e').
Qed.

(** Every event of a loop comes from one turn of its body. *)
Lemma for_each_log_elem l d ev :
  ev ∈ log (for_each l body d) → ∃ x d', x ∈ l ∧ ev ∈ log (body x d').
Proof.
  revert d. induction l as [|x l IH]; intros d; [by intros ?%elem_of_nil|].
  destruct (res (body x d)) as [[]|e] eqn:Hx.
  - rewrite for_each_cons_ok by done. simpl.
    intros [H|H]%elem_of_app.
    + exists x, d. split; [left|done].
    + destruct (IH _ H) as (y & d' & ? & ?). exists y, d'. split; [by right|done].
  - rewrite for_each_cons_raise with (e := e) by done. simpl.
    intros H. exists x, d. split; [left|done].
Qed.

End Loops.

(** ** Events of a run, piece by piece *)

Section Events.

Variable P : event → Prop.

Lemma log_bind_Forall {A B} (m : M A) (f : A → M B) d :
  Forall P (log (m d)) →
  (∀ a d', Forall P (log (f a d'))) →
  Forall P (log (bind m f d)).
Proof.
  intros Hm Hf. unfold bind. destruct (res (m d)); simpl; [|done].
  apply Forall_app. auto.
Qed.

Lemma log_for_each_Forall {A} (body : A → M unit) l d :
  (∀ x d', x ∈ l → Forall P (log (body x d'))) →
  Forall P (log (for_each l body d)).
Proof.
  intros H. apply Forall_forall. intros ev Hev.
  destruct (for_each_log_elem _ _ _ _ Hev) as (x & d' & Hx & Hin).
  specialize (H x d' Hx). rewrite Forall_forall in H. auto.
Qed.

Lemma log_ret_Forall {A} (a : A) d : Forall P (log (ret a d)).
Proof. constructor. Qed.

Lemma log_raise_Forall {A} e d : Forall P (log (@raise A e d)).
Proof. constructor. Qed.

Lemma log_lift_Forall {A} (r : result A) d : Forall P (log (lift r d)).
Proof. destruct r; constructor. Qed.

Lemma log_subscript_Forall {A} (o : option A) k d : Forall P (log (subscript o k d)).
Proof. destruct o; constructor. Qed.

Lemma log_emit_Forall ev d : P ev → Forall P (log (emit ev d)).
Proof. by repeat constructor. Qed.

Lemma log_call_Forall {A} ev (r : result A) d : P ev → Forall P (log (call ev r d)).
Proof.
  intros H. unfold call. apply log_bind_Forall.
  - by apply log_emit_Forall.
  - intros. apply log_lift_Forall.
Qed.

End Events.

Lemma uploads_nil_iff l : uploads l = [] ↔ Forall (λ ev, upload_of ev = None) l.
Proof.
  unfold uploads. induction l as [|ev l IH]; simpl.
  - split; [constructor|done].
  - rewrite Forall_cons. destruct (upload_of ev) eqn:E; simpl.
    + split; [done|]. by intros [? _].
    + rewrite IH. split; [by intros ?|by intros [_ ?]].
Qed.

Lemma uploads_app l1 l2 : uploads (l1 ++ l2) = uploads l1 ++ uploads l2.
Proof. apply omap_app. Qed.

(** ** The attachment filter (C1) *)

Lemma extension_allowed_iff filename allowed :
  extension_allowed filename allowed = true ↔
  ∃ ext, ext ∈ allowed ∧ ∃ pre, Py.lower filename = pre +:+ ext.
Proof.
  unfold extension_allowed, Py.any. rewrite existsb_exists.
  setoid_rewrite endswith_spec. setoid_rewrite list_elem_of_In. done.
Qed.

(** The configured set: what it holds, and that every entry is non-empty
    and already in lower case. *)
Lemma allowed_extensions_elem extensions_env e :
  e ∈ allowed_extensions extensions_env ↔
  ∃ piece, piece ∈ Py.split "," extensions_env
           ∧ Py.strip piece ≠ EmptyString ∧ e = Py.lower (Py.strip piece).
Proof.
  unfold allowed_extensions. rewrite list_elem_of_In, in_map_iff.
  setoid_rewrite filter_In. setoid_rewrite <-list_elem_of_In.
  split.
  - intros (piece & <- & Hin & Ht). exists piece. repeat split; [done|].
    intros E. by rewrite E in Ht.
  - intros (piece & Hin & Hne & ->). exists piece. repeat split; [done|].
    by destruct (Py.strip piece).
Qed.

Lemma allowed_extensions_lower extensions_env e :
  e ∈ allowed_extensions extensions_env → Py.lower e = e ∧ e ≠ EmptyString.
Proof.
  intros (piece & _ & Hne & ->)%allowed_extensions_elem. split.
  - apply lower_idemp.
  - by destruct (Py.strip piece).
Qed.

(** C1. The filter accepts a file name exactly when the lower-cased name
    ends with one of the suffixes of the allowed set, and it accepts no name
    when the set is empty.  For the set read from the configuration the
    suffixes are in lower case, so the match ignores case on both sides. *)
Theorem filter_accepts_iff_suffix_matches (filename : string) (allowed : list string) :
  (extension_allowed filename allowed = true ↔
     ∃ ext, ext ∈ allowed ∧ ∃ pre, Py.lower filename = pre +:+ ext)
  ∧ extension_allowed filename [] = false
  ∧ ∀ extensions_env,
      extension_allowed filename (allowed_extensions extensions_env) = true ↔
      ∃ ext, ext ∈ allowed_extensions extensions_env
             ∧ ∃ pre, Py.lower filename = pre +:+ Py.lower ext.
Proof.
  split; [apply extension_allowed_iff|]. split; [done|].
  intros extensions_env. rewrite extension_allowed_iff.
  split; intros (ext & Hin & pre & E); exists ext; (split; [done|]); exists pre;
    destruct (allowed_extensions_lower _ _ Hin) as [Hl _]; congruence.
Qed.

(** ** The allowed extensions (C10) *)

Lemma allowed_extensions_blank extensions_env :
  commas_and_blanks extensions_env = true → allowed_extensions extensions_env = [].
Proof.
  intros H%split_blank. unfold allowed_extensions.
  induction H as [|p ps Hp _ IH]; [done|]. simpl.
  by rewrite (strip_blank p Hp).
Qed.

Section NoneAllowed.

Variable environ : gmap string string.
Variable gmail : Gmail.
Variable drive : DriveService.

Lemma part_body_none_allowed folder_id msg_id part d :
  Forall no_upload (log (part_body_of_loop gmail drive [] folder_id msg_id part d)).
Proof.
  unfold part_body_of_loop.
  destruct (Py.truthy _); [|apply log_ret_Forall].
  apply log_bind_Forall; [apply log_subscript_Forall|]. intros body d'.
  destruct (body_attachmentId body); apply log_ret_Forall.
Qed.

Lemma message_body_none_allowed folder_id msg d :
  Forall no_upload (log (message_body_of_loop gmail drive [] folder_id msg d)).
Proof.
  unfold message_body_of_loop.
  apply log_bind_Forall; [apply log_subscript_Forall|]. intros msg_id d1.
  apply log_bind_Forall; [by apply log_call_Forall|]. intros message d2.
  destruct (message_payload message) as [payload|]; [|apply log_ret_Forall].
  destruct (payload_parts payload) as [parts|]; [|apply log_ret_Forall].
  apply log_for_each_Forall. intros. apply part_body_none_allowed.
Qed.

Lemma download_none_allowed query folder_id d :
  allowed_extensions (default EmptyString (getenv environ "ALLOWED_EXTENSIONS")) = [] →
  uploads (log (download_attachments environ gmail drive query folder_id d)) = [].
Proof.
  intros Hnone. apply uploads_nil_iff. unfold download_attachments.
  rewrite Hnone.
  apply log_bind_Forall; [by apply log_emit_Forall|]. intros _ d1.
  apply log_bind_Forall; [by apply log_call_Forall|]. intros results d2.
  destruct (default [] (result_messages results)); [by apply log_emit_Forall|].
  apply log_bind_Forall; [by apply log_emit_Forall|]. intros _ d3.
  apply log_for_each_Forall. intros. apply message_body_none_allowed.
Qed.

End NoneAllowed.

(** C10. The allowed set is read from [ALLOWED_EXTENSIONS] by cutting at the
    commas, trimming and lower-casing each piece and dropping the pieces that
    are empty once trimmed.  When the variable is unset, empty, or made of
    commas and white space only, the set is empty and the run uploads
    nothing. *)
Theorem allowed_extensions_from_configuration
    (environ : gmap string string) (gmail : Gmail) (drive : DriveService)
    (query folder_id : string)
    (d : list DriveFile) :
  let extensions_env := default EmptyString (getenv environ "ALLOWED_EXTENSIONS") in
  (join "," (Py.split "," extensions_env) = extensions_env
   ∧ Forall (λ piece, no_comma piece = true) (Py.split "," extensions_env))
  ∧ (∀ e, e ∈ allowed_extensions extensions_env ↔
          ∃ piece, piece ∈ Py.split "," extensions_env
                   ∧ Py.strip piece ≠ EmptyString ∧ e = Py.lower (Py.strip piece))
  ∧ (commas_and_blanks extensions_env = true →
     allowed_extensions extensions_env = []
     ∧ uploads (log (download_attachments environ gmail drive query folder_id d)) = []).
Proof.
  intros extensions_env. split; [split; [apply join_split|apply split_no_comma]|].
  split; [apply allowed_extensions_elem|].
  intros H%allowed_extensions_blank. split; [done|].
  by apply download_none_allowed.
Qed.

Lemma allowed_extensions_from_configuration_witness :
  commas_and_blanks (default EmptyString (getenv (∅ : gmap string string) "ALLOWED_EXTENSIONS")) = true
  ∧ uploads (log (download_attachments ∅ Sample.mailbox Drive.reliable "has:attachment" "id0" [])) = [].
Proof.
  split; [reflexivity|].
  apply (allowed_extensions_from_configuration ∅ Sample.mailbox Drive.reliable "has:attachment" "id0" []).
  reflexivity.
Defined.

(** ** The two loops, unfolded *)

Section Unfold.

Variable environ : gmap string string.
Variable gmail : Gmail.
Variable drive : DriveService.
Variable allowed : list string.
Variable folder_id : string.

(** A message with parts: its representation is fetched, then its parts are
    gone through. *)
Lemma message_body_parts msg id m payload parts d :
  summary_id msg = Some id →
  messages_get gmail id = Ok m →
  message_payload m = Some payload →
  payload_parts payload = Some parts →
  message_body_of_loop gmail drive allowed folder_id msg d =
    let o := for_each parts (part_body_of_loop gmail drive allowed folder_id id) d in
    {| res := res o; final := final o; log := GmailMessagesGet id :: log o |}.
Proof.
  intros Hid Hget Hp Hparts. unfold message_body_of_loop.
  rewrite Hid, bind_subscript_some, Hget, bind_call_ok, Hp, Hparts. done.
Qed.


End Unfold.

Lemma download_attachments_messages environ gmail drive query folder_id results msg rest d :
  messages_list gmail query = Ok results →
  default [] (result_messages results) = msg :: rest →
  download_attachments environ gmail drive query folder_id d =
    let allowed :=
      allowed_extensions (default EmptyString (getenv environ "ALLOWED_EXTENSIONS")) in
    let o := for_each (msg :: rest) (message_body_of_loop gmail drive allowed folder_id) d in
    {| res := res o; final := final o;
       log := Print ("Searching for messages with query: " +:+ query)
              :: GmailMessagesList query
              :: Print ("Found " +:+ pretty (length (msg :: rest))
                        +:+ " messages. Processing...")
              :: log o |}.
Proof.
  intros Hlist Hmsgs. unfold download_attachments, print. cbv zeta.
  rewrite bind_emit, Hlist, bind_call_ok, Hmsgs, bind_emit. done.
Qed.

(** ** Messages without parts (C4) *)



(** ** One part *)

Section OnePart.

Variable gmail : Gmail.
Variable drive : DriveService.
Variable allowed : list string.
Variable folder_id msg_id : string.

(** A part without a file name, or whose body holds no attachment id, is
    passed over. *)
Lemma part_body_skipped part d :
  default EmptyString (part_filename part) = EmptyString
  ∨ (∃ b, part_body part = Some b ∧ body_attachmentId b = None) →
  part_body_of_loop gmail drive allowed folder_id msg_id part d =
    {| res := Ok (); final := d; log := [] |}.
Proof.
  unfold part_body_of_loop. intros [->|(b & -> & Hb)]; [done|].
  destruct (Py.truthy _); [|done].
  by rewrite bind_subscript_some, Hb.
Qed.

(** A part that names a file but has no body: the subscript raises. *)
Lemma part_body_no_body part f d :
  part_filename part = Some f → f ≠ EmptyString → part_body part = None →
  part_body_of_loop gmail drive allowed folder_id msg_id part d =
    {| res := Raise (KeyError "body"); final := d; log := [] |}.
Proof.
  intros Hf Hne Hb. unfold part_body_of_loop. rewrite Hf, Hb. simpl.
  destruct f; [done|]. done.
Qed.

End OnePart.

(** ** A part without body (C9) *)

(** C9. A part with a non-empty file name and no [body] key makes the
    attachment test raise [KeyError] on [body]: nothing is logged for that
    part, the parts that follow it and the messages that follow its message
    are not processed, and the exception leaves the loops.  Parts without a
    file name or without an attachment id are passed over instead. *)
Theorem part_without_body_raises
    (gmail : Gmail) (drive : DriveService) (allowed : list string)
    (folder_id msg_id : string)
    (before after : list Part) (part : Part) (f : string) (d : list DriveFile) :
  part_filename part = Some f → f ≠ EmptyString → part_body part = None →
  let body := part_body_of_loop gmail drive allowed folder_id msg_id in
  let o1 := for_each before body d in
  res o1 = Ok () →
  body part (final o1) = {| res := Raise (KeyError "body"); final := final o1; log := [] |}
  ∧ for_each (before ++ part :: after) body d =
      {| res := Raise (KeyError "body"); final := final o1; log := log o1 |}
  ∧ (∀ msg m payload later,
       summary_id msg = Some msg_id →
       messages_get gmail msg_id = Ok m →
       message_payload m = Some payload →
       payload_parts payload = Some (before ++ part :: after) →
       for_each (msg :: later) (message_body_of_loop gmail drive allowed folder_id) d =
         {| res := Raise (KeyError "body"); final := final o1;
            log := GmailMessagesGet msg_id :: log o1 |})
  ∧ (∀ part' d',
       default EmptyString (part_filename part') = EmptyString
       ∨ (∃ b, part_body part' = Some b ∧ body_attachmentId b = None) →
       body part' d' = {| res := Ok (); final := d'; log := [] |}).
Proof.
  intros Hf Hne Hb body o1 Hok.
  assert (body part (final o1)
          = {| res := Raise (KeyError "body"); final := final o1; log := [] |}) as Hpart.
  { by eapply part_body_no_body. }
  assert (for_each (before ++ part :: after) body d
          = {| res := Raise (KeyError "body"); final := final o1; log := log o1 |}) as Hparts.
  { rewrite for_each_app_ok by done. fold o1.
    rewrite for_each_cons_raise with (e := KeyError "body"); rewrite Hpart; [|done].
    simpl. by rewrite app_nil_r. }
  split; [done|]. split; [done|]. split.
  - intros msg m payload later Hid Hget Hp Hps.
    rewrite for_each_cons_raise with (e := KeyError "body");
      rewrite (message_body_parts _ _ _ _ _ _ _ _ _ _ Hid Hget Hp Hps);
      cbv zeta; fold body; rewrite Hparts; done.
  - intros part' d' H. by apply part_body_skipped.
Qed.

Lemma part_without_body_raises_witness :
  let o := main Sample.env_full Sample.november Sample.signed_in
             Sample.with_bodiless_part Drive.reliable [] in
  for_each (map (λ i, {| summary_id := Some i |}) ["m1"; "m2"])
    (message_body_of_loop Sample.with_bodiless_part Drive.reliable [".pdf"; ".jpg"] "id0")
    [] =
    (let o1 := for_each [Sample.pdf_part "first.pdf" "a1"]
                 (part_body_of_loop Sample.with_bodiless_part Drive.reliable [".pdf"; ".jpg"] "id0" "m1")
                 [] in
     {| res := Raise (KeyError "body"); final := final o1;
        log := GmailMessagesGet "m1" :: log o1 |})
  ∧ upload_names (log o) = ["first.pdf"]
  ∧ last (log o) = Some (Print "An error occurred: 'body'").
Proof.
  intros o. split; [|split; vm_compute; reflexivity].
  destruct (part_without_body_raises Sample.with_bodiless_part Drive.reliable [".pdf"; ".jpg"] "id0" "m1"
              [Sample.pdf_part "first.pdf" "a1"] [Sample.pdf_part "last.pdf" "a3"]
              Sample.bodiless "broken.pdf" [] eq_refl ltac:(discriminate) eq_refl eq_refl)
    as (_ & _ & H & _).
  exact (H {| summary_id := Some "m1" |} _ _ [{| summary_id := Some "m2" |}]
           eq_refl eq_refl eq_refl eq_refl).
Defined.

(** ** Actions that keep to a set of events *)

Section Quiet.

Variable P : event → Prop.

Lemma quiet_bind {A B} (m : M A) (f : A → M B) :
  quiet_on P m → (∀ a, quiet_on P (f a)) → quiet_on P (bind m f).
Proof.
  intros Hm Hf d. destruct (Hm d) as [Hfin Hlog]. unfold bind.
  destruct (res (m d)) as [a|e]; simpl; [|done].
  destruct (Hf a (final (m d))) as [Hfin' Hlog'].
  split; [congruence|]. by apply Forall_app.
Qed.

Lemma quiet_ret {A} (a : A) : quiet_on P (ret a).
Proof. intros d. by split. Qed.

Lemma quiet_raise {A} e : quiet_on P (@raise A e).
Proof. intros d. by split. Qed.

Lemma quiet_lift {A} (r : result A) : quiet_on P (lift r).
Proof. destruct r; [apply quiet_ret|apply quiet_raise]. Qed.

Lemma quiet_subscript {A} (o : option A) k : quiet_on P (subscript o k).
Proof. destruct o; [apply quiet_ret|apply quiet_raise]. Qed.

Lemma quiet_emit ev : P ev → quiet_on P (emit ev).
Proof. intros H d. split; [done|]. by repeat constructor. Qed.

Lemma quiet_call {A} ev (r : result A) : P ev → quiet_on P (call ev r).
Proof. intros H. apply quiet_bind; [by apply quiet_emit|]. intros. apply quiet_lift. Qed.

Lemma logs_bind {A B} (m : M A) (f : A → M B) :
  logs_only P m → (∀ a, logs_only P (f a)) → logs_only P (bind m f).
Proof. intros Hm Hf d. apply log_bind_Forall; [apply Hm|]. intros a d'. apply Hf. Qed.

Lemma logs_quiet {A} (m : M A) : quiet_on P m → logs_only P m.
Proof. intros H d. apply H. Qed.

Lemma logs_for_each {A} (body : A → M unit) l :
  (∀ x, logs_only P (body x)) → logs_only P (for_each l body).
Proof. intros H d. apply log_for_each_Forall. intros x d' _. apply H. Qed.

End Quiet.

Ltac quiet_leaf :=
  first
    [ apply quiet_ret | apply quiet_raise | apply quiet_lift | apply quiet_subscript
    | apply quiet_emit; done | apply quiet_call; done ].

Ltac quiet_step := first [ quiet_leaf | apply quiet_bind; [|intros ?] ].

Ltac logs_step :=
  first [ apply logs_quiet; quiet_leaf | apply logs_bind; [|intros ?] ].

Section Credentials.

Variable environ : gmap string string.
Variable identity : Identity.

Lemma oauth_flow_quiet secret : quiet_on auth_event (oauth_flow identity secret).
Proof.
  unfold oauth_flow, print. quiet_step; [quiet_step|].
  cbv zeta. destruct (_ || _); quiet_step.
Qed.

(** Credential acquisition talks to the identity provider and the local
    files only: the Drive is untouched and no mail or storage call is
    made. *)
Lemma get_credentials_quiet : quiet_on auth_event (get_credentials environ identity).
Proof.
  unfold get_credentials, os_path_exists, print. cbv zeta.
  quiet_step; [destruct (getenv _ _); quiet_step|].
  quiet_step.
  { destruct a; repeat quiet_step. }
  destruct a0 as [c|].
  - destruct (creds_valid c); [quiet_step|].
    quiet_step; [|repeat quiet_step].
    destruct (_ && _); [repeat quiet_step|apply oauth_flow_quiet].
  - quiet_step; [apply oauth_flow_quiet|repeat quiet_step].
Qed.

End Credentials.

Lemma auth_event_no_service ev :
  auth_event ev → is_gmail_call ev = false ∧ is_drive_call ev = false.
Proof. by destruct ev. Qed.

Lemma filter_none {A} (f : A → bool) (P : A → Prop) l :
  (∀ x, P x → f x = false) → Forall P l → List.filter f l = [].
Proof.
  intros H. induction 1 as [|x l Hx _ IH]; [done|]. simpl. by rewrite (H x Hx).
Qed.

(** ** The events of the sync *)

(** ** The two storage calls *)

Section StorageCalls.

Variable drive : DriveService.

Lemma files_create_ok name mimeType parents media d :
  create_fault drive name mimeType parents media d = None →
  files_create drive name mimeType parents media d =
    {| res := Ok (Drive.fresh_id d);
       final := d ++ [{| file_id := Drive.fresh_id d; file_name := name;
                         file_mimeType := mimeType; file_parents := parents;
                         file_trashed := false; file_media := media |}];
       log := [DriveFilesCreate name mimeType parents media] |}.
Proof. intros H. unfold files_create, Drive.create. by rewrite H. Qed.

Lemma files_create_raise name mimeType parents media d e :
  create_fault drive name mimeType parents media d = Some e →
  files_create drive name mimeType parents media d =
    {| res := Raise e; final := d;
       log := [DriveFilesCreate name mimeType parents media] |}.
Proof. intros H. unfold files_create, Drive.create. by rewrite H. Qed.

Lemma files_create_log name mimeType parents media d :
  log (files_create drive name mimeType parents media d)
  = [DriveFilesCreate name mimeType parents media].
Proof.
  unfold files_create, Drive.create. by destruct (create_fault _ _ _ _ _ _).
Qed.

Lemma files_list_log q d : log (files_list drive q d) = [DriveFilesList q].
Proof. reflexivity. Qed.

End StorageCalls.

Section SyncEvents.

Variable environ : gmap string string.
Variable gmail : Gmail.
Variable drive : DriveService.
Variable folder_id : string.

Lemma file_exists_logs file_name :
  logs_only (sync_event folder_id) (file_exists_in_drive drive file_name folder_id).
Proof.
  unfold file_exists_in_drive. cbv zeta. apply logs_bind; [|intros ?; logs_step].
  intros d. rewrite files_list_log. by repeat constructor.
Qed.

Lemma upload_to_drive_logs file_name file_data :
  logs_only (sync_event folder_id) (upload_to_drive drive file_name file_data folder_id).
Proof.
  unfold upload_to_drive, print. apply logs_bind; [|intros ?; logs_step].
  intros d. rewrite files_create_log. by repeat constructor.
Qed.

Lemma part_body_logs allowed msg_id part :
  logs_only (sync_event folder_id) (part_body_of_loop gmail drive allowed folder_id msg_id part).
Proof.
  unfold part_body_of_loop, print.
  destruct (Py.truthy _); [|logs_step].
  logs_step; [logs_step|].
  destruct (body_attachmentId a); [|logs_step].
  destruct (negb _); [logs_step|].
  logs_step; [apply file_exists_logs|].
  destruct a0; [logs_step|].
  logs_step; [logs_step|]. logs_step; [logs_step|]. logs_step; [logs_step|].
  logs_step; [apply upload_to_drive_logs|logs_step].
Qed.

Lemma message_body_logs allowed msg :
  logs_only (sync_event folder_id) (message_body_of_loop gmail drive allowed folder_id msg).
Proof.
  unfold message_body_of_loop.
  logs_step; [logs_step|]. logs_step; [logs_step|].
  destruct (message_payload a0) as [payload|]; [|logs_step].
  destruct (payload_parts payload) as [parts|]; [|logs_step].
  apply logs_for_each. intros part. apply part_body_logs.
Qed.

(** The sync prints, reads the mailbox, queries the folder and uploads into
    it; it makes no other call. *)
Lemma download_attachments_logs query :
  logs_only (sync_event folder_id) (download_attachments environ gmail drive query folder_id).
Proof.
  unfold download_attachments, print. cbv zeta.
  logs_step; [logs_step|]. logs_step; [logs_step|].
  destruct (default [] (result_messages a0)); [logs_step|].
  logs_step; [logs_step|].
  apply logs_for_each. intros msg. apply message_body_logs.
Qed.

End SyncEvents.


(** ** Destination preparation (C6) *)



Section Main.

Variable environ : gmap string string.
Variable now : datetime.
Variable identity : Identity.
Variable gmail : Gmail.
Variable drive : DriveService.




(** What [main] does once the credentials are there: the folder is created,
    then either the configuration error is printed or the sync runs; an
    exception of the folder creation or of the sync is caught and printed. *)
Lemma main_after_credentials d c :
  res (get_credentials environ identity d) = Ok c →
  let oc := get_credentials environ identity d in
  let ofolder := create_drive_folder now drive d in
  let query := default EmptyString (getenv environ "GMAIL_SEARCH_QUERY") in
  main environ now identity gmail drive d =
    match res ofolder with
    | Ok folder_id =>
        let rest :=
          (if negb (Py.truthy query)
           then print "Error: GMAIL_SEARCH_QUERY not found in .env file."
           else download_attachments environ gmail drive query folder_id)
            (final ofolder) in
        {| res := Ok (); final := final rest;
           log := log oc ++ log ofolder ++ log rest
                  ++ match res rest with
                     | Ok _ => []
                     | Raise e => [Print ("An error occurred: " +:+ exn_str e)]
                     end |}
    | Raise e =>
        {| res := Ok (); final := final ofolder;
           log := log oc ++ log ofolder
                  ++ [Print ("An error occurred: " +:+ exn_str e)] |}
    end.
Proof.
  intros Hc oc ofolder query.
  destruct (get_credentials_quiet environ identity d) as [Hfin _].
  unfold main, try_except.
  rewrite (bind_ok _ _ _ c Hc). rewrite Hfin. cbv zeta.
  fold ofolder. destruct (res ofolder) as [folder_id|e] eqn:E.
  - rewrite (bind_ok _ _ _ folder_id E).
    fold query. fold ofolder. fold oc. cbv beta.
    match goal with
    | |- context [res (?m (final ofolder))] => set (rest := m (final ofolder))
    end.
    cbn [res final log].
    destruct (res rest) as [[]|e] eqn:Er; cbn [res final log].
    + by rewrite app_nil_r.
    + by rewrite <-!app_assoc.
  - rewrite (bind_raise _ _ _ e E). fold oc. cbn [res final log].
    by rewrite <-app_assoc.
Qed.

Lemma main_without_credentials d e :
  res (get_credentials environ identity d) = Raise e →
  main environ now identity gmail drive d =
    {| res := Ok (); final := d;
       log := log (get_credentials environ identity d)
              ++ [Print ("An error occurred: " +:+ exn_str e)] |}.
Proof.
  intros He. destruct (get_credentials_quiet environ identity d) as [Hfin _].
  unfold main, try_except. rewrite (bind_raise _ _ _ e He). simpl. by rewrite Hfin.
Qed.

End Main.



(** ** A missing search query (C7) *)



(** ** Where an event of the sync comes from *)

Section Origins.

Variable gmail : Gmail.
Variable drive : DriveService.
Variable allowed : list string.
Variable folder_id : string.

(** An event of one message: the fetch of its representation, or an event
    of one of its parts. *)
Lemma message_body_log_elem msg d ev :
  ev ∈ log (message_body_of_loop gmail drive allowed folder_id msg d) →
  ∃ id, summary_id msg = Some id
    ∧ (ev = GmailMessagesGet id
       ∨ ∃ part d', part ∈ parts_of gmail id
           ∧ ev ∈ log (part_body_of_loop gmail drive allowed folder_id id part d')).
Proof.
  unfold message_body_of_loop.
  destruct (summary_id msg) as [id|] eqn:Hid;
    [rewrite bind_subscript_some|by intros ?%elem_of_nil].
  intros Hev. exists id. split; [done|]. revert Hev.
  destruct (messages_get gmail id) as [m|e] eqn:Hget.
  - rewrite bind_call_ok. simpl log. intros [->|Hev]%elem_of_cons; [by left|]. right.
    unfold parts_of. rewrite Hget.
    destruct (message_payload m) as [payload|]; [|by apply elem_of_nil in Hev].
    simpl. destruct (payload_parts payload) as [parts|]; [|by apply elem_of_nil in Hev].
    destruct (for_each_log_elem _ _ _ _ Hev) as (part & d' & ? & ?). by exists part, d'.
  - rewrite bind_call_raise. simpl log. intros ->%list_elem_of_singleton. by left.
Qed.

End Origins.

(** An event of the sync: one of the three of the search, or an event of a
    message of the search result. *)
Lemma download_attachments_log_elem environ gmail drive query folder_id d ev :
  ev ∈ log (download_attachments environ gmail drive query folder_id d) →
  is_Some (upload_of ev) →
  ∃ results msg d',
    messages_list gmail query = Ok results
    ∧ msg ∈ default [] (result_messages results)
    ∧ ev ∈ log (message_body_of_loop gmail drive
                  (allowed_extensions
                     (default EmptyString (getenv environ "ALLOWED_EXTENSIONS")))
                  folder_id msg d').
Proof.
  intros Hev Hup.
  destruct (messages_list gmail query) as [results|e] eqn:Hlist.
  - destruct (default [] (result_messages results)) as [|msg rest] eqn:Hmsgs.
    + revert Hev. unfold download_attachments, print. cbv zeta.
      rewrite bind_emit, Hlist, bind_call_ok, Hmsgs. simpl log.
      intros Hev. repeat (apply elem_of_cons in Hev as [->|Hev]; [by destruct Hup|]).
      by apply elem_of_nil in Hev.
    + rewrite (download_attachments_messages _ _ _ _ _ _ _ _ _ Hlist Hmsgs) in Hev.
      cbv zeta in Hev. cbn [log] in Hev.
      repeat (apply elem_of_cons in Hev as [->|Hev]; [by destruct Hup|]).
      destruct (for_each_log_elem _ _ _ _ Hev) as (m & d' & ? & ?).
      exists results, m, d'. by rewrite Hmsgs.
  - revert Hev. unfold download_attachments, print. cbv zeta.
    rewrite bind_emit, Hlist, bind_call_raise. simpl log.
    intros Hev. repeat (apply elem_of_cons in Hev as [->|Hev]; [by destruct Hup|]).
    by apply elem_of_nil in Hev.
Qed.

(** A part of a message of the search result that is a candidate is among
    the candidates of the result. *)
Lemma candidates_elem gmail messages msg id part c :
  msg ∈ messages → summary_id msg = Some id → part ∈ parts_of gmail id →
  candidate_of id part = Some c →
  c ∈ candidates gmail messages.
Proof.
  intros Hmsg Hid Hpart Hc. unfold candidates.
  apply list_elem_of_In, in_flat_map. exists msg. split; [by apply list_elem_of_In|].
  rewrite Hid. apply list_elem_of_In, list_elem_of_omap. by exists part.
Qed.

(** ** The bytes of an upload (C5) *)

Section Payload.

Variable gmail : Gmail.
Variable drive : DriveService.
Variable allowed : list string.
Variable folder_id msg_id : string.

Lemma log_bind_call_Forall (P : event → Prop) {A B} ev (r : result A) (f : A → M B) d :
  P ev → (∀ a, r = Ok a → Forall P (log (f a d))) →
  Forall P (log (bind (call ev r) f d)).
Proof.
  intros Hev Hf. destruct r as [a|e].
  - rewrite bind_call_ok. simpl. constructor; auto.
  - rewrite bind_call_raise. simpl. by repeat constructor.
Qed.

Lemma file_exists_log file_name d :
  ∃ q, log (file_exists_in_drive drive file_name folder_id d) = [DriveFilesList q].
Proof.
  unfold file_exists_in_drive, bind. cbv zeta. cbn [files_list res final log].
  eexists. destruct (Drive.list_files drive _ d); reflexivity.
Qed.

Lemma upload_to_drive_log file_name file_data d :
  ∃ l, log (upload_to_drive drive file_name file_data folder_id d)
       = DriveFilesCreate file_name None [folder_id] (Some file_data) :: l
     ∧ (l = [] ∨ ∃ line, l = [Print line]).
Proof.
  unfold upload_to_drive.
  destruct (create_fault drive file_name None [folder_id] (Some file_data) d)
    as [e|] eqn:H.
  - rewrite (bind_raise _ _ _ e); rewrite (files_create_raise _ _ _ _ _ _ _ H); [|done].
    exists []. split; [done|by left].
  - rewrite (bind_ok _ _ _ (Drive.fresh_id d)); rewrite (files_create_ok _ _ _ _ _ _ H);
      [|done].
    eexists. split; [reflexivity|]. right. by eexists.
Qed.

Lemma part_body_carries part d :
  Forall (carries_payload gmail folder_id msg_id part)
    (log (part_body_of_loop gmail drive allowed folder_id msg_id part d)).
Proof.
  unfold part_body_of_loop.
  destruct (part_filename part) as [f|] eqn:Hf; [|constructor].
  change (default EmptyString (Some f)) with f.
  destruct (Py.truthy f) eqn:Hne; [|constructor].
  destruct (part_body part) as [b|] eqn:Hb; [rewrite bind_subscript_some|constructor].
  destruct (body_attachmentId b) as [a|] eqn:Ha; [|constructor].
  destruct (negb _); [constructor|].
  apply log_bind_Forall.
  { destruct (file_exists_log f d) as [q ->]. by repeat constructor. }
  intros present d'. destruct present; [by apply log_emit_Forall|].
  apply log_bind_call_Forall; [done|]. intros att Hatt.
  destruct (attachment_data att) as [payload|] eqn:Hdata;
    [rewrite bind_subscript_some|constructor].
  destruct (Py.urlsafe_b64decode payload) as [data|e] eqn:Hdec;
    [rewrite bind_lift_ok|constructor].
  apply log_bind_Forall; [|intros; by apply log_emit_Forall].
  destruct (upload_to_drive_log f data d') as (l & -> & Hl).
  constructor; [|destruct Hl as [->|[line ->]]; by repeat constructor].
  exists a, att, payload. unfold candidate_of. rewrite Hf, Hb, Hne, Ha. done.
Qed.

End Payload.

(** C5. Every upload issued by the sync comes from a candidate of the
    search result: it bears the file name of the candidate, goes into the
    folder of the run, and its bytes are the base64url decoding of the [data]
    field of the attachment fetched for that candidate, as they are. *)
Theorem upload_carries_decoded_payload
    (environ : gmap string string) (gmail : Gmail) (drive : DriveService)
    (query folder_id : string)
    (d : list DriveFile) (name : string) (mimeType : option string)
    (parents : list string) (data : list Byte.byte) :
  DriveFilesCreate name mimeType parents (Some data)
    ∈ log (download_attachments environ gmail drive query folder_id d) →
  ∃ results c attachment payload,
    messages_list gmail query = Ok results
    ∧ c ∈ candidates gmail (default [] (result_messages results))
    ∧ cand_filename c = name
    ∧ attachments_get gmail (cand_message c) (cand_attachment c) = Ok attachment
    ∧ attachment_data attachment = Some payload
    ∧ Py.urlsafe_b64decode payload = Ok data
    ∧ mimeType = None ∧ parents = [folder_id].
Proof.
  intros Hev.
  destruct (download_attachments_log_elem _ _ _ _ _ _ _ Hev) as (results & msg & d1 & Hlist & Hmsg & H1);
    [by eexists|].
  destruct (message_body_log_elem _ _ _ _ _ _ _ H1) as (id & Hid & [?|(part & d2 & Hpart & H2)]);
    [done|].
  match type of H2 with
  | _ ∈ log (part_body_of_loop _ _ ?allowed _ _ _ _) =>
      pose proof (part_body_carries gmail drive allowed folder_id id part d2) as Hall
  end.
  rewrite Forall_forall in Hall. specialize (Hall _ H2).
  destruct Hall as (a & att & payload & Hc & Hatt & Hdata & Hdec & -> & ->).
  exists results, {| cand_message := id; cand_filename := name; cand_attachment := a |},
    att, payload.
  split; [done|]. split; [by eapply candidates_elem|]. done.
Qed.

Lemma upload_carries_decoded_payload_witness :
  ∃ results c attachment payload,
    messages_list Sample.mailbox "has:attachment" = Ok results
    ∧ c ∈ candidates Sample.mailbox (default [] (result_messages results))
    ∧ cand_filename c = "invoice.pdf"
    ∧ attachments_get Sample.mailbox (cand_message c) (cand_attachment c) = Ok attachment
    ∧ attachment_data attachment = Some payload
    ∧ Py.urlsafe_b64decode payload
      = Ok [Byte.x68; Byte.x65; Byte.x6c; Byte.x6c; Byte.x6f]
    ∧ (None : option string) = None ∧ ["id0"] = ["id0"].
Proof.
  apply (upload_carries_decoded_payload Sample.env_pdf Sample.mailbox Drive.reliable "has:attachment"
           "id0" [] "invoice.pdf" None ["id0"]
           [Byte.x68; Byte.x65; Byte.x6c; Byte.x6c; Byte.x6f]).
  apply list_elem_of_In. vm_compute. do 6 right. left. reflexivity.
Defined.

(** ** One candidate, step by step *)

Section OneCandidate.

Variable gmail : Gmail.
Variable drive : DriveService.
Variable allowed : list string.
Variable folder_id msg_id : string.

Lemma file_exists_run file_name d :
  file_exists_in_drive drive file_name folder_id d =
    {| res := match Drive.list_files drive (guard_query folder_id file_name) d with
              | Ok files => Ok (0 <? length files)
              | Raise e => Raise e
              end;
       final := d;
       log := [DriveFilesList (guard_query folder_id file_name)] |}.
Proof.
  unfold file_exists_in_drive, files_list, bind, guard_query. cbn [res final log].
  destruct (Drive.list_files _ _ d); reflexivity.
Qed.

Lemma upload_to_drive_ok file_name file_data d :
  create_fault drive file_name None [folder_id] (Some file_data) d = None →
  upload_to_drive drive file_name file_data folder_id d =
    {| res := Ok ();
       final := d ++ [{| file_id := Drive.fresh_id d; file_name := file_name;
                         file_mimeType := None; file_parents := [folder_id];
                         file_trashed := false; file_media := Some file_data |}];
       log := [DriveFilesCreate file_name None [folder_id] (Some file_data);
               Print ("Uploaded " +:+ file_name +:+ " to Google Drive with ID: "
                      +:+ Drive.fresh_id d)] |}.
Proof.
  intros H. unfold upload_to_drive.
  rewrite (bind_ok _ _ _ (Drive.fresh_id d)); rewrite (files_create_ok _ _ _ _ _ _ H);
    [|done].
  reflexivity.
Qed.

Lemma upload_to_drive_raise file_name file_data d e :
  create_fault drive file_name None [folder_id] (Some file_data) d = Some e →
  upload_to_drive drive file_name file_data folder_id d =
    {| res := Raise e; final := d;
       log := [DriveFilesCreate file_name None [folder_id] (Some file_data)] |}.
Proof.
  intros H. unfold upload_to_drive.
  rewrite (bind_raise _ _ _ e); rewrite (files_create_raise _ _ _ _ _ _ _ H); done.
Qed.

(** What is done for a candidate: the filter, the guard, the fetch, the
    decoding and the upload, each ending the processing when it says so. *)
Lemma part_body_candidate part f a d :
  candidate_of msg_id part
  = Some {| cand_message := msg_id; cand_filename := f; cand_attachment := a |} →
  part_body_of_loop gmail drive allowed folder_id msg_id part d =
    let q := DriveFilesList (guard_query folder_id f) in
    let get := GmailAttachmentsGet msg_id a in
    if negb (extension_allowed f allowed) then {| res := Ok (); final := d; log := [] |}
    else
      match Drive.list_files drive (guard_query folder_id f) d with
      | Raise e => {| res := Raise e; final := d; log := [q] |}
      | Ok files =>
          if 0 <? length files then
            {| res := Ok (); final := d;
               log := [q; Print ("File '" +:+ f
                                 +:+ "' already exists in Drive folder, skipping.")] |}
          else
            match attachments_get gmail msg_id a with
            | Raise e => {| res := Raise e; final := d; log := [q; get] |}
            | Ok attachment =>
                match attachment_data attachment with
                | None => {| res := Raise (KeyError "data"); final := d; log := [q; get] |}
                | Some payload =>
                    match Py.urlsafe_b64decode payload with
                    | Raise e => {| res := Raise e; final := d; log := [q; get] |}
                    | Ok data =>
                        match create_fault drive f None [folder_id] (Some data) d with
                        | Some e =>
                            {| res := Raise e; final := d;
                               log := [q; get;
                                       DriveFilesCreate f None [folder_id] (Some data)] |}
                        | None =>
                            {| res := Ok ();
                               final :=
                                 d ++ [{| file_id := Drive.fresh_id d; file_name := f;
                                          file_mimeType := None;
                                          file_parents := [folder_id];
                                          file_trashed := false;
                                          file_media := Some data |}];
                               log := [q; get;
                                       DriveFilesCreate f None [folder_id] (Some data);
                                       Print ("Uploaded " +:+ f
                                              +:+ " to Google Drive with ID: "
                                              +:+ Drive.fresh_id d);
                                       Print ("Success: " +:+ f)] |}
                        end
                    end
                end
            end
      end.
Proof.
  unfold candidate_of, part_body_of_loop.
  destruct (part_filename part) as [f'|]; [|done].
  destruct (part_body part) as [b|]; [|done].
  change (default EmptyString (Some f')) with f'.
  destruct (Py.truthy f'); [|done].
  destruct (body_attachmentId b) as [a'|] eqn:Ha; [|done].
  intros [= -> ->]. rewrite bind_subscript_some, Ha. cbv zeta.
  destruct (negb _); [done|].
  unfold bind at 1. rewrite file_exists_run. cbn [res final log].
  destruct (Drive.list_files _ _ d) as [files|e]; [|done].
  destruct (0 <? length files); [done|].
  destruct (attachments_get gmail msg_id a) as [att|e]; [|done].
  rewrite bind_call_ok.
  destruct (attachment_data att) as [payload|]; [|done].
  rewrite bind_subscript_some.
  destruct (Py.urlsafe_b64decode payload) as [data|e]; [|done].
  rewrite bind_lift_ok.
  destruct (create_fault drive f None [folder_id] (Some data) d) as [e|] eqn:Hfault.
  - rewrite (bind_raise _ _ _ e); rewrite (upload_to_drive_raise _ _ _ _ Hfault); done.
  - rewrite (bind_ok _ _ _ ()); rewrite (upload_to_drive_ok _ _ _ Hfault); done.
Qed.

(** A part that is no candidate: passed over, or the [body] subscript
    raises; nothing is logged either way. *)
Lemma part_body_not_candidate part d :
  candidate_of msg_id part = None →
  final (part_body_of_loop gmail drive allowed folder_id msg_id part d) = d
  ∧ log (part_body_of_loop gmail drive allowed folder_id msg_id part d) = [].
Proof.
  unfold candidate_of, part_body_of_loop.
  destruct (part_filename part) as [f|]; [|done].
  change (default EmptyString (Some f)) with f.
  destruct (part_body part) as [b|]; [|by destruct (Py.truthy f)].
  destruct (Py.truthy f); [|done].
  rewrite bind_subscript_some.
  destruct (body_attachmentId b); done.
Qed.

End OneCandidate.

(** ** The steps of the two loops *)

Lemma steps_app l1 l2 : steps (l1 ++ l2) = steps l1 ++ steps l2.
Proof. apply omap_app. Qed.

Lemma visits_app l1 l2 : visits (l1 ++ l2) = visits l1 ++ visits l2.
Proof. unfold visits. by rewrite steps_app, List.filter_app. Qed.

(** The steps of a loop follow the list it goes through. *)
Lemma for_each_steps_sublist {A} (body : A → M unit) (expected : A → list step) l d :
  (∀ x d', x ∈ l → steps (log (body x d')) `sublist_of` expected x) →
  steps (log (for_each l body d)) `sublist_of` flat_map expected l.
Proof.
  revert d. induction l as [|x l IH]; intros d H; [done|].
  simpl flat_map.
  destruct (res (body x d)) as [[]|e] eqn:Hx.
  - rewrite for_each_cons_ok by done. cbn [log]. rewrite steps_app.
    apply sublist_app; [apply H; left|]. apply IH. intros y d' Hy. apply H. by right.
  - rewrite for_each_cons_raise with (e := e) by done. cbn [log].
    apply sublist_inserts_r. apply H. left.
Qed.

(** The visits of a loop are those of its turns, one after the other: all
    of them when it ends without exception, the first of them otherwise. *)
Lemma for_each_visits {A} (body : A → M unit) (expected : A → list step) l d :
  (∀ x d', x ∈ l →
     visits (log (body x d')) `prefix_of` List.filter is_visit (expected x)
     ∧ (res (body x d') = Ok () →
        visits (log (body x d')) = List.filter is_visit (expected x))) →
  visits (log (for_each l body d)) `prefix_of` List.filter is_visit (flat_map expected l)
  ∧ (res (for_each l body d) = Ok () →
     visits (log (for_each l body d)) = List.filter is_visit (flat_map expected l)).
Proof.
  revert d. induction l as [|x l IH]; intros d H; [done|].
  simpl flat_map. rewrite List.filter_app.
  destruct (H x d (list_elem_of_here _ _)) as [Hpre Heq].
  destruct (res (body x d)) as [[]|e] eqn:Hx.
  - rewrite for_each_cons_ok by done. cbn [res log]. rewrite visits_app, (Heq eq_refl).
    destruct (IH (final (body x d)) (λ y d' Hy, H y d' (list_elem_of_further _ _ _ Hy)))
      as [Hpre' Heq'].
    split; [by apply prefix_app|]. intros Hok. by rewrite (Heq' Hok).
  - rewrite for_each_cons_raise with (e := e) by done. cbn [res log].
    split; [by apply prefix_app_r|done].
Qed.

Lemma candidate_of_message msg_id part c :
  candidate_of msg_id part = Some c → cand_message c = msg_id.
Proof.
  unfold candidate_of. destruct (part_filename part); [|done].
  destruct (part_body part) as [b|]; [|done]. destruct (Py.truthy _); [|done].
  destruct (body_attachmentId b); [|done]. by intros [= <-].
Qed.

Section Order.

Variable gmail : Gmail.
Variable drive : DriveService.
Variable allowed : list string.
Variable folder_id : string.

(** A candidate that passes the filter is looked up, then fetched, then
    uploaded, or the first of these; another part does none. *)
Lemma part_body_steps msg_id part d :
  steps (log (part_body_of_loop gmail drive allowed folder_id msg_id part d))
  `sublist_of` part_schedule allowed folder_id msg_id part.
Proof.
  unfold part_schedule.
  destruct (candidate_of msg_id part) as [[m f a]|] eqn:Hc.
  - pose proof (candidate_of_message _ _ _ Hc) as Hm. simpl in Hm. subst m.
    rewrite (part_body_candidate _ _ _ _ _ _ _ _ _ Hc). cbv zeta.
    cbn [cand_filename]. unfold candidate_steps. cbn [cand_filename cand_message cand_attachment].
    destruct (extension_allowed f allowed); cbn [negb]; [|done].
    destruct (Drive.list_files _ _ d) as [files|e];
      [|by apply sublist_skip, sublist_nil_l].
    destruct (0 <? length files); [by apply sublist_skip, sublist_nil_l|].
    destruct (attachments_get gmail msg_id a) as [att|e];
      [|by do 2 apply sublist_skip; apply sublist_nil_l].
    destruct (attachment_data att) as [payload|];
      [|by do 2 apply sublist_skip; apply sublist_nil_l].
    destruct (Py.urlsafe_b64decode payload) as [data|e];
      [|by do 2 apply sublist_skip; apply sublist_nil_l].
    by destruct (create_fault _ _ _ _ _ _).
  - destruct (part_body_not_candidate gmail drive allowed folder_id msg_id part d Hc)
      as [_ ->].
    done.
Qed.

(** Whether it is looked up does not depend on how the rest goes. *)
Lemma part_body_visits msg_id part d :
  visits (log (part_body_of_loop gmail drive allowed folder_id msg_id part d))
  = List.filter is_visit (part_schedule allowed folder_id msg_id part).
Proof.
  unfold part_schedule.
  destruct (candidate_of msg_id part) as [[m f a]|] eqn:Hc.
  - pose proof (candidate_of_message _ _ _ Hc) as Hm. simpl in Hm. subst m.
    rewrite (part_body_candidate _ _ _ _ _ _ _ _ _ Hc). cbv zeta.
    cbn [cand_filename]. unfold candidate_steps. cbn [cand_filename cand_message cand_attachment].
    destruct (extension_allowed f allowed); cbn [negb]; [|done].
    destruct (Drive.list_files _ _ d) as [files|e]; [|done].
    destruct (0 <? length files); [done|].
    destruct (attachments_get gmail msg_id a) as [att|e]; [|done].
    destruct (attachment_data att) as [payload|]; [|done].
    destruct (Py.urlsafe_b64decode payload) as [data|e]; [|done].
    by destruct (create_fault _ _ _ _ _ _).
  - destruct (part_body_not_candidate gmail drive allowed folder_id msg_id part d Hc)
      as [_ ->].
    done.
Qed.

Lemma message_body_steps msg d :
  steps (log (message_body_of_loop gmail drive allowed folder_id msg d))
  `sublist_of` match summary_id msg with
               | Some id => message_schedule gmail allowed folder_id id
               | None => []
               end.
Proof.
  unfold message_body_of_loop, message_schedule, parts_of.
  destruct (summary_id msg) as [id|]; [rewrite bind_subscript_some|done].
  destruct (messages_get gmail id) as [m|e].
  - rewrite bind_call_ok. cbn [log]. change (steps (?ev :: ?l)) with (Opened id :: steps l).
    apply sublist_skip.
    destruct (message_payload m) as [payload|]; [|apply sublist_nil_l]. simpl.
    destruct (payload_parts payload) as [parts|]; [|apply sublist_nil_l]. simpl.
    apply for_each_steps_sublist.
    intros part d' _. apply part_body_steps.
  - rewrite bind_call_raise. by apply sublist_skip.
Qed.

Lemma message_body_visits msg d :
  let o := message_body_of_loop gmail drive allowed folder_id msg d in
  let expected := match summary_id msg with
                  | Some id => message_schedule gmail allowed folder_id id
                  | None => []
                  end in
  visits (log o) `prefix_of` List.filter is_visit expected
  ∧ (res o = Ok () → visits (log o) = List.filter is_visit expected).
Proof.
  cbv zeta. unfold message_body_of_loop, message_schedule, parts_of.
  destruct (summary_id msg) as [id|]; [rewrite bind_subscript_some|done].
  destruct (messages_get gmail id) as [m|e].
  - rewrite bind_call_ok. cbn [res log].
    change (visits (GmailMessagesGet id :: ?l)) with (Opened id :: visits l).
    change (List.filter is_visit (Opened id :: ?l))
      with (Opened id :: List.filter is_visit l).
    destruct (message_payload m) as [payload|]; [|done]. simpl default.
    destruct (payload_parts payload) as [parts|]; [|done]. simpl default.
    destruct (for_each_visits (part_body_of_loop gmail drive allowed folder_id id)
                (part_schedule allowed folder_id id) parts d) as [Hpre Heq].
    { intros part d' _. rewrite part_body_visits. done. }
    split; [by apply (prefix_app [_])|]. intros Hok. by rewrite (Heq Hok).
  - by rewrite bind_call_raise.
Qed.

(** The messages opened are the first messages of the list, in its order,
    and all of them when the loop ends without exception. *)
Lemma part_body_opens_none msg_id part d :
  omap get_of (log (part_body_of_loop gmail drive allowed folder_id msg_id part d)) = [].
Proof.
  destruct (candidate_of msg_id part) as [[m f a]|] eqn:Hc.
  - pose proof (candidate_of_message _ _ _ Hc) as Hm. simpl in Hm. subst m.
    rewrite (part_body_candidate _ _ _ _ _ _ _ _ _ Hc). cbv zeta.
    destruct (negb _); [done|].
    destruct (Drive.list_files _ _ d) as [files|e]; [|done].
    destruct (0 <? length files); [done|].
    destruct (attachments_get gmail msg_id a) as [att|e]; [|done].
    destruct (attachment_data att) as [payload|]; [|done].
    destruct (Py.urlsafe_b64decode payload) as [data|e]; [|done].
    by destruct (create_fault _ _ _ _ _ _).
  - destruct (part_body_not_candidate gmail drive allowed folder_id msg_id part d Hc)
      as [_ ->].
    done.
Qed.

Lemma parts_loop_opens_none msg_id parts d :
  omap get_of
    (log (for_each parts (part_body_of_loop gmail drive allowed folder_id msg_id) d))
  = [].
Proof.
  revert d. induction parts as [|part parts IH]; intros d; [done|].
  destruct (res (part_body_of_loop gmail drive allowed folder_id msg_id part d))
    as [[]|e] eqn:Hx.
  - rewrite for_each_cons_ok by done. cbn [log].
    by rewrite omap_app, part_body_opens_none, IH.
  - rewrite for_each_cons_raise with (e := e) by done. cbn [log].
    apply part_body_opens_none.
Qed.

Lemma message_body_opens msg d :
  let o := message_body_of_loop gmail drive allowed folder_id msg d in
  omap get_of (log o) = option_list (summary_id msg)
  ∧ (res o = Ok () → is_Some (summary_id msg)).
Proof.
  unfold message_body_of_loop. cbv zeta.
  destruct (summary_id msg) as [id|]; [rewrite bind_subscript_some|done].
  split; [|by eexists].
  destruct (messages_get gmail id) as [m|e].
  - rewrite bind_call_ok. cbn [log]. simpl. f_equal.
    destruct (message_payload m) as [payload|]; [|done].
    destruct (payload_parts payload) as [parts|]; [|done].
    apply parts_loop_opens_none.
  - by rewrite bind_call_raise.
Qed.

Lemma messages_loop_opens messages d :
  let o := for_each messages (message_body_of_loop gmail drive allowed folder_id) d in
  omap get_of (log o) `prefix_of` omap summary_id messages
  ∧ (res o = Ok () →
     omap get_of (log o) = omap summary_id messages
     ∧ length (omap get_of (log o)) = length messages).
Proof.
  cbv zeta. revert d. induction messages as [|msg messages IH]; intros d.
  { split; [done|]. by intros _. }
  destruct (message_body_opens msg d) as [Hlog Hid]. cbv zeta in Hlog, Hid.
  destruct (res (message_body_of_loop gmail drive allowed folder_id msg d))
    as [[]|e] eqn:Hx.
  - rewrite for_each_cons_ok by done. cbn [res log]. rewrite omap_app, Hlog.
    destruct Hid as [id Hid]; [done|]. rewrite Hid. simpl. rewrite Hid.
    destruct (IH (final (message_body_of_loop gmail drive allowed folder_id msg d)))
      as [Hpre Hall].
    split.
    + by apply (prefix_app [id]).
    + intros Hok. destruct (Hall Hok) as [-> Hlen]. split; [done|].
      simpl. f_equal. by rewrite <-Hlen.
  - rewrite for_each_cons_raise with (e := e) by done. cbn [res log]. rewrite Hlog.
    split; [|done]. simpl.
    destruct (summary_id msg); simpl; [|apply prefix_nil].
    apply (prefix_app [_]), prefix_nil.
Qed.

End Order.

(** ** The duplicate guard *)

Section Query.

Lemma replace_no_quote new s :
  no_quote s = true → Py.replace Py.quote new s = s.
Proof.
  induction s as [|c s IH]; [done|]. simpl.
  intros [Hc Hs]%andb_true_iff. apply negb_true_iff in Hc. by rewrite Hc, IH.
Qed.

(** A name without backslash, quoted as the guard quotes it, is read back
    by the search language as it was. *)
Lemma read_literal_escaped s rest :
  no_backslash s = true →
  Drive.read_literal
    (Py.replace Py.quote (String Py.backslash (String Py.quote EmptyString)) s
     +:+ String Py.quote rest)
  = Some (s, rest).
Proof.
  induction s as [|c s IH]; [done|].
  simpl no_backslash. intros [Hc Hs]%andb_true_iff. apply negb_true_iff in Hc.
  simpl Py.replace. destruct (Ascii.eqb c Py.quote) eqn:Hq.
  - apply Ascii.eqb_eq in Hq as ->. rewrite !append_cons, append_empty_l.
    cbn [Drive.read_literal]. change (Ascii.eqb Py.backslash Py.quote) with false.
    rewrite Ascii.eqb_refl. cbn [orb]. by rewrite (IH Hs).
  - rewrite append_cons. cbn [Drive.read_literal]. by rewrite Hq, Hc, (IH Hs).
Qed.

Lemma expect_append word s : Drive.expect word (word +:+ s) = Some s.
Proof.
  induction word as [|c word IH]; [by destruct s|].
  rewrite append_cons. simpl. by rewrite Ascii.eqb_refl.
Qed.

(** The query of the guard says what it is meant to say, for a plain folder
    id and a name without backslash. *)
Lemma parse_guard_query folder_id file_name :
  plain_id folder_id = true → no_backslash file_name = true →
  Drive.parse_query (guard_query folder_id file_name) = Some (folder_id, file_name).
Proof.
  intros [Hb Hq]%andb_true_iff Hname. unfold Drive.parse_query, guard_query.
  rewrite expect_append. cbn [mbind option_bind].
  rewrite <-(replace_no_quote (String Py.backslash (String Py.quote EmptyString)) folder_id)
    at 1 by done.
  change ("' in parents and name = '" +:+ ?x)
    with (String Py.quote (" in parents and name = '" +:+ x)).
  rewrite read_literal_escaped by done. cbn [mbind option_bind].
  rewrite expect_append. cbn [mbind option_bind].
  change ("' and trashed = false") with (String Py.quote " and trashed = false").
  rewrite read_literal_escaped by done. cbn [mbind option_bind].
  by rewrite String.eqb_refl.
Qed.

Lemma existsb_filter_length {A} (f : A → bool) l :
  (0 <? length (List.filter f l)) = existsb f l.
Proof. induction l as [|x l IH]; [done|]. simpl. by destruct (f x). Qed.

(** For such names the guard is an exact-name lookup in the folder that
    leaves out the bin, unless the list call fails, and it changes
    nothing. *)
Lemma list_files_guard drive folder_id file_name d :
  plain_id folder_id = true → no_backslash file_name = true →
  Drive.list_files drive (guard_query folder_id file_name) d
  = match list_fault drive (guard_query folder_id file_name) d with
    | Some e => Raise e
    | None => Ok (List.filter (Drive.matches folder_id file_name) d)
    end.
Proof.
  intros Hid Hname. unfold Drive.list_files. by rewrite parse_guard_query.
Qed.

Lemma guard_exact drive folder_id file_name d :
  plain_id folder_id = true → no_backslash file_name = true →
  file_exists_in_drive drive file_name folder_id d =
    {| res := match list_fault drive (guard_query folder_id file_name) d with
              | Some e => Raise e
              | None => Ok (present d folder_id file_name)
              end;
       final := d;
       log := [DriveFilesList (guard_query folder_id file_name)] |}.
Proof.
  intros Hid Hname. rewrite file_exists_run, list_files_guard by done.
  destruct (list_fault _ _ _); [done|].
  unfold present. by rewrite existsb_filter_length.
Qed.

End Query.

(** ** At most one upload per name *)

Section Expected.

Variable allowed : list string.

Lemma expected_uploads_app l1 l2 taken :
  expected_uploads allowed (l1 ++ l2) taken
  = expected_uploads allowed l1 taken
    ++ expected_uploads allowed l2 (rev (expected_uploads allowed l1 taken) ++ taken).
Proof.
  revert taken. induction l1 as [|name l1 IH]; intros taken; [done|].
  simpl. destruct (_ && _).
  - rewrite IH. simpl. by rewrite <-app_assoc.
  - apply IH.
Qed.

(** The prescribed uploads name no file twice and none that was there. *)
Lemma expected_uploads_fresh l taken :
  NoDup (expected_uploads allowed l taken)
  ∧ ∀ n, n ∈ expected_uploads allowed l taken → n ∉ taken.
Proof.
  revert taken. induction l as [|name l IH]; intros taken.
  { split; [constructor|]. by intros n ?%elem_of_nil. }
  simpl. destruct (extension_allowed name allowed); simpl; [|apply IH].
  destruct (bool_decide (name ∈ taken)) eqn:Hin; simpl; [apply IH|].
  apply bool_decide_eq_false in Hin.
  destruct (IH (name :: taken)) as [Hnd Hfresh]. split.
  - constructor; [|done]. intros H. apply (Hfresh _ H). left.
  - intros n [->|H]%elem_of_cons; [done|].
    intros Hn. apply (Hfresh _ H). by right.
Qed.

(** They name every candidate that passes the filter and was not there. *)
Lemma expected_uploads_complete l taken n :
  n ∈ l → extension_allowed n allowed = true → n ∉ taken →
  n ∈ expected_uploads allowed l taken.
Proof.
  revert taken. induction l as [|name l IH]; intros taken; [by intros ?%elem_of_nil|].
  intros Hn Hext Hfresh. simpl.
  destruct (decide (name = n)) as [->|Hne].
  - rewrite Hext, bool_decide_eq_false_2 by done. left.
  - apply elem_of_cons in Hn as [->|Hn]; [done|].
    destruct (_ && _); [right|]; apply IH; try done.
    intros [->|?]%elem_of_cons; done.
Qed.

End Expected.

Lemma upload_names_app l1 l2 : upload_names (l1 ++ l2) = upload_names l1 ++ upload_names l2.
Proof. unfold upload_names. by rewrite uploads_app, map_app. Qed.

Lemma present_live_names d folder n : present d folder n = true ↔ n ∈ live_names d folder.
Proof.
  unfold present, live_names. rewrite existsb_exists, list_elem_of_In, in_map_iff.
  split.
  - intros (f & Hf & Hm). exists f. unfold Drive.matches in Hm.
    apply andb_true_iff in Hm as [[Hp Hn]%andb_true_iff Ht].
    apply String.eqb_eq in Hn. split; [done|].
    apply filter_In. split; [done|]. by rewrite Hp, Ht.
  - intros (f & <- & [Hf Hm]%filter_In). exists f. split; [done|].
    unfold Drive.matches. apply andb_true_iff in Hm as [Hp Ht].
    by rewrite Hp, Ht, String.eqb_refl.
Qed.

(** An upload puts a live object of that name into the folder and leaves
    the other names as they were. *)
Lemma present_after_upload d folder id f mimeType media n :
  present (d ++ [{| file_id := id; file_name := f; file_mimeType := mimeType;
                    file_parents := [folder]; file_trashed := false;
                    file_media := media |}]) folder n
  = present d folder n || String.eqb f n.
Proof.
  unfold present. rewrite existsb_app. f_equal.
  unfold Drive.matches. simpl.
  rewrite bool_decide_eq_true_2 by (apply list_elem_of_singleton; done).
  by rewrite orb_false_r, andb_true_r.
Qed.

Section AsExpected.

Variable gmail : Gmail.
Variable drive : DriveService.
Variable allowed : list string.
Variable folder_id : string.
Hypothesis folder_plain : plain_id folder_id = true.

Lemma for_each_uploads_as_expected {A} (body : A → M unit) (names_of : A → list string) l d :
  (∀ x d', x ∈ l → uploads_as_expected allowed folder_id (names_of x) d' (body x d')) →
  uploads_as_expected allowed folder_id (flat_map names_of l) d (for_each l body d).
Proof.
  revert d. induction l as [|x l IH]; intros d H taken Hinv.
  { split; [done|]. intros _. split; [done|]. done. }
  simpl flat_map. rewrite expected_uploads_app.
  destruct (H x d (list_elem_of_here _ _) taken Hinv) as [Hpre Hok].
  destruct (res (body x d)) as [[]|e] eqn:Hx.
  - destruct (Hok eq_refl) as [Heq Hinv'].
    rewrite for_each_cons_ok by done. cbn [res final log].
    rewrite upload_names_app, Heq.
    destruct (IH (final (body x d)) (λ y d' Hy, H y d' (list_elem_of_further _ _ _ Hy))
                 _ Hinv') as [Hpre' Hok'].
    rewrite Heq in Hpre', Hok'. split.
    + by apply prefix_app.
    + intros Hres. destruct (Hok' Hres) as [-> Hfin]. split; [done|].
      intros n. rewrite Hfin, rev_app_distr, <-app_assoc. done.
  - rewrite for_each_cons_raise with (e := e) by done. cbn [res final log].
    split; [by apply prefix_app_r|done].
Qed.

Lemma part_body_uploads_as_expected msg_id part d :
  (∀ c, candidate_of msg_id part = Some c → no_backslash (cand_filename c) = true) →
  uploads_as_expected allowed folder_id (part_names msg_id part) d
    (part_body_of_loop gmail drive allowed folder_id msg_id part d).
Proof.
  intros Hname taken Hinv. unfold part_names.
  destruct (candidate_of msg_id part) as [[m f a]|] eqn:Hc.
  - pose proof (candidate_of_message _ _ _ Hc) as Hm. simpl in Hm. subst m.
    specialize (Hname _ eq_refl). simpl in Hname.
    rewrite (part_body_candidate _ _ _ _ _ _ _ _ _ Hc). cbv zeta.
    rewrite list_files_guard by done.
    simpl from_option. simpl expected_uploads.
    destruct (extension_allowed f allowed); cbn [negb andb];
      [|split; [done|]; intros _; split; [done|]; apply Hinv].
    destruct (list_fault drive _ d) as [e|]; [split; [apply prefix_nil|done]|].
    rewrite existsb_filter_length. fold (present d folder_id f).
    destruct (present d folder_id f) eqn:Hp.
    { apply Hinv in Hp. rewrite bool_decide_eq_true_2 by done. cbn [negb].
      split; [done|]. intros _. split; [done|]. apply Hinv. }
    assert (f ∉ taken) as Hfresh.
    { intros Hin. apply Hinv in Hin. congruence. }
    rewrite bool_decide_eq_false_2 by done. cbn [negb].
    destruct (attachments_get gmail msg_id a) as [att|e]; [|split; [apply prefix_nil|done]].
    destruct (attachment_data att) as [payload|]; [|split; [apply prefix_nil|done]].
    destruct (Py.urlsafe_b64decode payload) as [data|e]; [|split; [apply prefix_nil|done]].
    destruct (create_fault drive f None [folder_id] (Some data) d) as [e|];
      [split; [apply (prefix_app [f]), prefix_nil|done]|].
    cbn [res final log]. split; [done|]. intros _. split; [done|].
    intros n. rewrite present_after_upload, orb_true_iff, String.eqb_eq, Hinv.
    change (rev (upload_names _) ++ taken) with (f :: taken).
    rewrite elem_of_cons. split; intros [?|?]; auto.
  - destruct (part_body_not_candidate gmail drive allowed folder_id msg_id part d Hc) as [Hfin Hlog].
    rewrite Hfin, Hlog. simpl. split; [done|]. intros _. split; [done|]. apply Hinv.
Qed.

Lemma message_body_uploads_as_expected msg d :
  (∀ id part c, summary_id msg = Some id → part ∈ parts_of gmail id →
                candidate_of id part = Some c → no_backslash (cand_filename c) = true) →
  uploads_as_expected allowed folder_id (message_names gmail msg) d
    (message_body_of_loop gmail drive allowed folder_id msg d).
Proof.
  intros Hname. unfold message_names, message_body_of_loop, parts_of.
  destruct (summary_id msg) as [id|] eqn:Hid;
    [rewrite bind_subscript_some|by intros taken Hinv].
  specialize (Hname id). unfold parts_of in Hname.
  destruct (messages_get gmail id) as [m|e].
  - rewrite bind_call_ok.
    destruct (message_payload m) as [payload|]; simpl;
      [|intros taken Hinv; split; [done|]; intros _; split; [done|]; apply Hinv].
    destruct (payload_parts payload) as [parts|] eqn:Hparts; simpl;
      [|intros taken Hinv; split; [done|]; intros _; split; [done|]; apply Hinv].
    pose proof (for_each_uploads_as_expected
                  (part_body_of_loop gmail drive allowed folder_id id) (part_names id) parts d) as H.
    intros taken Hinv. cbn [res final log].
    change (upload_names (GmailMessagesGet id :: ?l)) with (upload_names l).
    apply H; [|done].
    intros part d' Hpart. apply part_body_uploads_as_expected.
    intros c Hc. apply (Hname part c); [done|simpl; by rewrite Hparts|done].
  - rewrite bind_call_raise. intros taken Hinv. split; [apply prefix_nil|done].
Qed.

End AsExpected.

Lemma candidates_names gmail messages :
  map cand_filename (candidates gmail messages) = flat_map (message_names gmail) messages.
Proof.
  unfold candidates. induction messages as [|msg messages IH]; [done|].
  simpl. rewrite map_app, IH. f_equal.
  unfold message_names. destruct (summary_id msg) as [id|]; [|done].
  generalize (parts_of gmail id). intros parts.
  induction parts as [|part parts IHp]; [done|].
  simpl. unfold part_names at 1. destruct (candidate_of id part); simpl; [f_equal|]; apply IHp.
Qed.



(** ** Credential acquisition *)

(** X1. Credential acquisition talks to the identity provider and to the
    local files only: it makes no mail call and no storage call, and it
    leaves the Drive as it is, whatever it returns or raises. *)
Theorem credentials_touch_no_service
    (environ : gmap string string) (identity : Identity) (d : list DriveFile) :
  let o := get_credentials environ identity d in
  final o = d
  ∧ Forall auth_event (log o)
  ∧ List.filter is_gmail_call (log o) = []
  ∧ List.filter is_drive_call (log o) = [].
Proof.
  cbv zeta. destruct (get_credentials_quiet environ identity d) as [Hfin Hlog].
  split; [done|]. split; [done|].
  split; apply (filter_none _ auth_event); try done; by intros [].
Qed.

(** X2. A token file that holds valid credentials is all it takes: they are
    loaded and returned, nothing is refreshed, no flow is run and the token
    file is not written. *)
Theorem valid_token_is_returned
    (environ : gmap string string) (identity : Identity) (d : list DriveFile)
    (p : string) (c : Credentials) :
  getenv environ "GMAIL_CREDENTIALS_PATH" = Some p →
  path_exists identity p = true →
  from_authorized_user_file identity p = Ok c →
  creds_valid c = true →
  get_credentials environ identity d
  = {| res := Ok c; final := d; log := [LoadToken p] |}.
Proof.
  intros Hp Hex Hload Hvalid. unfold get_credentials, os_path_exists. cbv zeta.
  rewrite Hp, bind_ret, Hex. change (default EmptyString (Some p)) with p.
  rewrite Hload. cbv [bind call emit lift ret res final log].
  by rewrite Hvalid.
Qed.

Lemma valid_token_is_returned_witness :
  get_credentials Sample.env_full Sample.signed_in []
  = {| res := Ok Sample.good_creds; final := []; log := [LoadToken "token.json"] |}.
Proof.
  apply (valid_token_is_returned Sample.env_full Sample.signed_in [] "token.json"
           Sample.good_creds); reflexivity.
Defined.

(** X3. Expired credentials with a refresh token are refreshed, not asked
    for anew: the refreshed credentials are written to the token file and
    returned, and the interactive flow is not run. *)
Theorem expired_token_is_refreshed_and_saved
    (environ : gmap string string) (identity : Identity) (d : list DriveFile)
    (p r : string) (c c' : Credentials) :
  getenv environ "GMAIL_CREDENTIALS_PATH" = Some p →
  path_exists identity p = true →
  from_authorized_user_file identity p = Ok c →
  creds_valid c = false → creds_expired c = true →
  creds_refresh_token c = Some r → r ≠ EmptyString →
  creds_refresh identity c = Ok c' →
  write_file identity p (creds_to_json c') = Ok () →
  get_credentials environ identity d
  = {| res := Ok c'; final := d;
       log := [LoadToken p; Print "Refreshing access token..."; RefreshToken;
               WriteFile p (creds_to_json c')] |}.
Proof.
  intros Hp Hex Hload Hvalid Hexp Htok Hr Href Hwrite.
  unfold get_credentials, os_path_exists. cbv zeta.
  rewrite Hp, bind_ret, Hex. change (default EmptyString (Some p)) with p.
  rewrite Hload. cbv [bind call emit lift ret res final log print].
  rewrite Hvalid, Hexp, Htok. change (default EmptyString (Some r)) with r.
  destruct r; [done|]. cbn [Py.truthy andb].
  rewrite Href. cbn [app]. by rewrite Hwrite.
Qed.

Lemma expired_token_is_refreshed_and_saved_witness :
  get_credentials Sample.env_full Sample.returning []
  = {| res := Ok Sample.good_creds; final := [];
       log := [LoadToken "token.json"; Print "Refreshing access token..."; RefreshToken;
               WriteFile "token.json" "{}"] |}.
Proof.
  apply (expired_token_is_refreshed_and_saved Sample.env_full Sample.returning []
           "token.json" "r" Sample.stale_creds Sample.good_creds); done.
Defined.

(** X4. Without usable credentials and without a client secret file (the
    variable unset or empty, or no file at that path) the flow is announced
    and [FileNotFoundError] is raised with the path in its message; nothing
    is written to the token file. *)
Theorem missing_client_secret_raises
    (environ : gmap string string) (identity : Identity) (d : list DriveFile)
    (p : string) :
  getenv environ "GMAIL_CREDENTIALS_PATH" = Some p →
  path_exists identity p = false →
  default EmptyString (getenv environ "CLIENT_SECRET_PATH") = EmptyString
  ∨ path_exists identity (default EmptyString (getenv environ "CLIENT_SECRET_PATH")) = false →
  get_credentials environ identity d
  = {| res := Raise (FileNotFoundError
                       ("Client secret file not found at: "
                        +:+ Py.str_opt (getenv environ "CLIENT_SECRET_PATH")));
       final := d;
       log := [Print "Fetching new tokens via OAuth flow..."] |}.
Proof.
  intros Hp Hex Hsecret.
  unfold get_credentials, os_path_exists, oauth_flow. cbv zeta.
  rewrite Hp, bind_ret, Hex, bind_ret.
  assert (negb (Py.truthy (default EmptyString (getenv environ "CLIENT_SECRET_PATH")))
          || negb (path_exists identity
                     (default EmptyString (getenv environ "CLIENT_SECRET_PATH"))) = true)
    as ->.
  { destruct Hsecret as [->| ->]; [done|]. by rewrite orb_true_r. }
  reflexivity.
Qed.

Lemma missing_client_secret_raises_witness :
  get_credentials Sample.env_full Sample.first_time []
  = {| res := Raise (FileNotFoundError "Client secret file not found at: None");
       final := []; log := [Print "Fetching new tokens via OAuth flow..."] |}.
Proof.
  apply (missing_client_secret_raises Sample.env_full Sample.first_time [] "token.json");
    [reflexivity|reflexivity|by left].
Defined.

(** X5. With [GMAIL_CREDENTIALS_PATH] unset, [os.path.exists] is called on
    [None] and raises [TypeError] before anything is loaded, asked or
    printed; the run then ends on the line of that error. *)
Theorem unset_token_path_raises
    (environ : gmap string string) (now : datetime) (identity : Identity)
    (gmail : Gmail) (drive : DriveService) (d : list DriveFile) :
  getenv environ "GMAIL_CREDENTIALS_PATH" = None →
  ∃ message,
    get_credentials environ identity d
    = {| res := Raise (TypeError message); final := d; log := [] |}
    ∧ main environ now identity gmail drive d
      = {| res := Ok (); final := d;
           log := [Print ("An error occurred: " +:+ message)] |}.
Proof.
  intros Hp.
  exists "stat: path should be string, bytes, os.PathLike or integer, not NoneType".
  match goal with |- ?eq ∧ _ => assert eq as Hc end.
  { unfold get_credentials, os_path_exists. cbv zeta. rewrite Hp. reflexivity. }
  split; [exact Hc|].
  rewrite (main_without_credentials environ now identity gmail drive d _ (f_equal res Hc)).
  by rewrite Hc.
Qed.

Lemma unset_token_path_raises_witness :
  ∃ message,
    get_credentials Sample.env_pdf Sample.signed_in []
    = {| res := Raise (TypeError message); final := []; log := [] |}
    ∧ main Sample.env_pdf Sample.november Sample.signed_in Sample.mailbox Drive.reliable []
      = {| res := Ok (); final := [];
           log := [Print ("An error occurred: " +:+ message)] |}.
Proof.
  apply (unset_token_path_raises Sample.env_pdf Sample.november Sample.signed_in
           Sample.mailbox Drive.reliable []).
  reflexivity.
Defined.

Lemma bind_load_some {A B} ev (a : A) (k : option A → M B) d :
  bind (bind (call ev (Ok a)) (λ c, ret (Some c))) k d
  = {| res := res (k (Some a) d); final := final (k (Some a) d);
       log := ev :: log (k (Some a) d) |}.
Proof. reflexivity. Qed.

(** X6. Credentials that are returned either come valid from the token file,
    which is then only read, or have just been written to the token file:
    the write of their JSON form is the last thing done and it succeeded. *)
Theorem returned_credentials_are_on_file
    (environ : gmap string string) (identity : Identity) (d : list DriveFile)
    (c : Credentials) :
  res (get_credentials environ identity d) = Ok c →
  ∃ p, getenv environ "GMAIL_CREDENTIALS_PATH" = Some p
    ∧ ((path_exists identity p = true
        ∧ from_authorized_user_file identity p = Ok c
        ∧ creds_valid c = true
        ∧ log (get_credentials environ identity d) = [LoadToken p])
       ∨ (write_file identity p (creds_to_json c) = Ok ()
          ∧ ∃ before,
              log (get_credentials environ identity d)
              = before ++ [WriteFile p (creds_to_json c)])).
Proof.
  unfold get_credentials, os_path_exists. cbv zeta.
  destruct (getenv environ "GMAIL_CREDENTIALS_PATH") as [p|] eqn:Hp; [|done].
  change (default EmptyString (Some p)) with p. rewrite bind_ret.
  intros H. exists p. split; [done|]. revert H.
  assert (∀ (m : M Credentials) d0 pre,
            res ((c' <- m ;;
                  call (WriteFile p (creds_to_json c'))
                    (write_file identity p (creds_to_json c')) ;;
                  ret c') d0) = Ok c →
            write_file identity p (creds_to_json c) = Ok ()
            ∧ ∃ before,
                pre ++ log ((c' <- m ;;
                             call (WriteFile p (creds_to_json c'))
                               (write_file identity p (creds_to_json c')) ;;
                             ret c') d0)
                = before ++ [WriteFile p (creds_to_json c)]) as Hrenew.
  { intros m d0 pre. unfold bind at 1 3.
    destruct (res (m d0)) as [c'|e]; [|done].
    cbv [bind call emit lift ret res final log].
    destruct (write_file identity p (creds_to_json c')) as [[]|e] eqn:Hw; [|done].
    cbn [res log]. intros [= ->]. split; [done|].
    exists (pre ++ log (m d0)). by rewrite !app_nil_r, app_assoc. }
  destruct (path_exists identity p) eqn:Hex.
  - destruct (from_authorized_user_file identity p) as [c0|e] eqn:Hload; [|done].
    rewrite bind_load_some. cbn [res log].
    destruct (creds_valid c0) eqn:Hvalid.
    + cbn [res log ret]. intros [= ->]. by left.
    + intros H. right. by apply (Hrenew _ d [LoadToken p]) in H.
  - rewrite bind_ret. intros H. right. by apply (Hrenew _ d []) in H.
Qed.

Lemma returned_credentials_are_on_file_witness :
  ∃ p, getenv Sample.env_full "GMAIL_CREDENTIALS_PATH" = Some p
    ∧ ((path_exists Sample.returning p = true
        ∧ from_authorized_user_file Sample.returning p = Ok Sample.good_creds
        ∧ creds_valid Sample.good_creds = true
        ∧ log (get_credentials Sample.env_full Sample.returning []) = [LoadToken p])
       ∨ (write_file Sample.returning p (creds_to_json Sample.good_creds) = Ok ()
          ∧ ∃ before,
              log (get_credentials Sample.env_full Sample.returning [])
              = before ++ [WriteFile p (creds_to_json Sample.good_creds)])).
Proof.
  apply (returned_credentials_are_on_file Sample.env_full Sample.returning []
           Sample.good_creds).
  reflexivity.
Defined.

(** ** The Drive changes through create calls only *)

Section Replays.

Variable drive : DriveService.

Lemma replay_app d l1 l2 :
  replay drive d (l1 ++ l2) = replay drive (replay drive d l1) l2.
Proof.
  revert d. induction l1 as [|ev l1 IH]; intros d; [done|].
  destruct ev; simpl; apply IH.
Qed.

Lemma replay_grows d l : d `prefix_of` replay drive d l.
Proof.
  revert d. induction l as [|ev l IH]; intros d; [done|].
  destruct ev; simpl; try apply IH.
  unfold Drive.create. destruct (create_fault _ _ _ _ _ _); cbn [snd]; [apply IH|].
  etrans; [|apply IH]. by apply prefix_app_r.
Qed.

Lemma replay_auth d l : Forall auth_event l → replay drive d l = d.
Proof. induction 1 as [|ev l Hev _ IH]; [done|]. by destruct ev. Qed.

Lemma replays_ret {A} (a : A) : replays drive (ret a).
Proof. by intros d. Qed.

Lemma replays_raise {A} e : replays drive (@raise A e).
Proof. by intros d. Qed.

Lemma replays_lift {A} (r : result A) : replays drive (lift r).
Proof. by destruct r. Qed.

Lemma replays_subscript {A} (o : option A) k : replays drive (subscript o k).
Proof. by destruct o. Qed.

Lemma replays_emit ev : (∀ d, replay drive d [ev] = d) → replays drive (emit ev).
Proof. intros H d. by rewrite <-(H d) at 1. Qed.

Lemma replays_bind {A B} (m : M A) (f : A → M B) :
  replays drive m → (∀ a, replays drive (f a)) → replays drive (bind m f).
Proof.
  intros Hm Hf d. unfold bind. destruct (res (m d)) as [a|e]; cbn [final log]; [|apply Hm].
  by rewrite replay_app, <-Hm, <-Hf.
Qed.

Lemma replays_call {A} ev (r : result A) :
  (∀ d, replay drive d [ev] = d) → replays drive (call ev r).
Proof.
  intros H. apply replays_bind; [by apply replays_emit|]. intros. apply replays_lift.
Qed.

Lemma replays_for_each {A} (body : A → M unit) l :
  (∀ x, replays drive (body x)) → replays drive (for_each l body).
Proof.
  intros H. induction l as [|x l IH]; [apply replays_ret|].
  apply replays_bind; [apply H|]. by intros _.
Qed.

Lemma replays_try_except {A} (m : M A) (h : exn → M A) :
  replays drive m → (∀ e, replays drive (h e)) → replays drive (try_except m h).
Proof.
  intros Hm Hh d. unfold try_except. cbv zeta.
  destruct (res (m d)) as [a|e]; cbn [final log]; [apply Hm|].
  by rewrite replay_app, <-Hm, <-Hh.
Qed.

Lemma replays_files_create name mimeType parents media :
  replays drive (files_create drive name mimeType parents media).
Proof.
  intros d. unfold files_create, Drive.create.
  destruct (create_fault drive name mimeType parents media d) eqn:H;
    cbn [final log replay]; unfold Drive.create; by rewrite H.
Qed.

Lemma replays_files_list q : replays drive (files_list drive q).
Proof. by intros d. Qed.

End Replays.

Ltac replays_step :=
  first
    [ apply replays_ret | apply replays_raise | apply replays_lift
    | apply replays_subscript | apply replays_files_create | apply replays_files_list
    | apply replays_emit; done | apply replays_call; done
    | apply replays_bind; [|intros ?] ].

Section ScriptReplays.

Variable environ : gmap string string.
Variable now : datetime.
Variable identity : Identity.
Variable gmail : Gmail.
Variable drive : DriveService.

Lemma get_credentials_replays : replays drive (get_credentials environ identity).
Proof.
  intros d. destruct (get_credentials_quiet environ identity d) as [Hfin Hlog].
  by rewrite replay_auth.
Qed.

Lemma create_drive_folder_replays : replays drive (create_drive_folder now drive).
Proof. unfold create_drive_folder, print. cbv zeta. repeat replays_step. Qed.

Lemma file_exists_replays file_name folder_id :
  replays drive (file_exists_in_drive drive file_name folder_id).
Proof. unfold file_exists_in_drive. cbv zeta. repeat replays_step. Qed.

Lemma upload_to_drive_replays file_name file_data folder_id :
  replays drive (upload_to_drive drive file_name file_data folder_id).
Proof. unfold upload_to_drive, print. repeat replays_step. Qed.

Lemma part_body_replays allowed folder_id msg_id part :
  replays drive (part_body_of_loop gmail drive allowed folder_id msg_id part).
Proof.
  unfold part_body_of_loop, print. cbv zeta.
  destruct (Py.truthy _); [|replays_step].
  replays_step; [replays_step|].
  destruct (body_attachmentId a); [|replays_step].
  destruct (negb _); [replays_step|].
  replays_step; [apply file_exists_replays|].
  destruct a0; [replays_step|].
  replays_step; [replays_step|]. replays_step; [replays_step|].
  replays_step; [replays_step|].
  apply replays_bind; [apply upload_to_drive_replays|intros ?; replays_step].
Qed.

Lemma message_body_replays allowed folder_id msg :
  replays drive (message_body_of_loop gmail drive allowed folder_id msg).
Proof.
  unfold message_body_of_loop.
  replays_step; [replays_step|]. replays_step; [replays_step|].
  destruct (message_payload a0) as [payload|]; [|replays_step].
  destruct (payload_parts payload) as [parts|]; [|replays_step].
  apply replays_for_each. intros part. apply part_body_replays.
Qed.

Lemma download_attachments_replays query folder_id :
  replays drive (download_attachments environ gmail drive query folder_id).
Proof.
  unfold download_attachments, print. cbv zeta.
  replays_step; [replays_step|]. replays_step; [replays_step|].
  destruct (default [] (result_messages a0)); [replays_step|].
  replays_step; [replays_step|].
  apply replays_for_each. intros msg. apply message_body_replays.
Qed.

Lemma main_replays : replays drive (main environ now identity gmail drive).
Proof.
  unfold main, print. apply replays_try_except; [|intros e; replays_step].
  replays_step; [apply get_credentials_replays|].
  replays_step; [apply create_drive_folder_replays|].
  cbv zeta. destruct (negb _); [replays_step|apply download_attachments_replays].
Qed.

End ScriptReplays.

(** ** The whole run *)

(** X7. A run never raises: whatever the environment, the clock, the
    identity provider, the mailbox and the Drive, [main] returns normally.
    It changes the Drive through its create calls only, so every object the
    Drive held is still there, in place, when the run ends. *)
Theorem main_returns_and_only_adds
    (environ : gmap string string) (now : datetime) (identity : Identity)
    (gmail : Gmail) (drive : DriveService) (d : list DriveFile) :
  let o := main environ now identity gmail drive d in
  res o = Ok ()
  ∧ final o = replay drive d (log o)
  ∧ d `prefix_of` final o.
Proof.
  cbv zeta. pose proof (main_replays environ now identity gmail drive d) as Hfin.
  split; [|split; [done|rewrite Hfin; apply replay_grows]].
  unfold main, try_except, print. cbv zeta.
  match goal with |- context [res (?m d)] => destruct (res (m d)) as [[]|e] eqn:E end;
    [|done].
  by rewrite E.
Qed.

(** X8. When credential acquisition raises, the run stops there: the error
    is printed, no mail call and no storage call is made, not even the
    creation of the folder, and the Drive is as it was. *)
Theorem failed_credentials_stop_run
    (environ : gmap string string) (now : datetime) (identity : Identity)
    (gmail : Gmail) (drive : DriveService) (d : list DriveFile) (e : exn) :
  res (get_credentials environ identity d) = Raise e →
  let o := main environ now identity gmail drive d in
  o = {| res := Ok (); final := d;
         log := log (get_credentials environ identity d)
                ++ [Print ("An error occurred: " +:+ exn_str e)] |}
  ∧ List.filter is_gmail_call (log o) = []
  ∧ List.filter is_drive_call (log o) = [].
Proof.
  intros He. cbv zeta.
  rewrite (main_without_credentials environ now identity gmail drive d e He).
  split; [done|]. cbn [log]. rewrite !List.filter_app.
  destruct (get_credentials_quiet environ identity d) as [_ Hlog].
  rewrite (filter_none is_gmail_call auth_event _ (λ ev H, proj1 (auth_event_no_service ev H)) Hlog).
  rewrite (filter_none is_drive_call auth_event _ (λ ev H, proj2 (auth_event_no_service ev H)) Hlog).
  done.
Qed.

Lemma failed_credentials_stop_run_witness :
  main Sample.env_full Sample.november Sample.first_time Sample.mailbox Drive.reliable []
  = {| res := Ok (); final := [];
       log := [Print "Fetching new tokens via OAuth flow...";
               Print "An error occurred: Client secret file not found at: None"] |}.
Proof.
  destruct (failed_credentials_stop_run Sample.env_full Sample.november Sample.first_time
              Sample.mailbox Drive.reliable []
              (FileNotFoundError "Client secret file not found at: None") eq_refl)
    as [H _].
  exact H.
Defined.

(** ** The search and its failures *)

(** X9. A search that finds nothing, with an empty list of messages or none
    in the answer, ends the sync at once: the line [No messages found.] is
    printed, no message is fetched, no storage call is made and the Drive is
    as it was. *)
Theorem no_messages_found
    (environ : gmap string string) (gmail : Gmail) (drive : DriveService)
    (query folder_id : string)
    (d : list DriveFile) (results : SearchResult) :
  messages_list gmail query = Ok results →
  result_messages results = None ∨ result_messages results = Some [] →
  download_attachments environ gmail drive query folder_id d
  = {| res := Ok (); final := d;
       log := [Print ("Searching for messages with query: " +:+ query);
               GmailMessagesList query; Print "No messages found."] |}.
Proof.
  intros Hlist Hnone. unfold download_attachments, print. cbv zeta.
  rewrite bind_emit, Hlist, bind_call_ok.
  by destruct Hnone as [-> | ->].
Qed.

Lemma no_messages_found_witness :
  download_attachments Sample.env_pdf
    {| messages_list := λ _, Ok {| result_messages := None |};
       messages_get := messages_get Sample.mailbox;
       attachments_get := attachments_get Sample.mailbox |}
    Drive.reliable "has:attachment" "id0" []
  = {| res := Ok (); final := [];
       log := [Print "Searching for messages with query: has:attachment";
               GmailMessagesList "has:attachment"; Print "No messages found."] |}.
Proof.
  apply (no_messages_found Sample.env_pdf _ Drive.reliable "has:attachment" "id0" []
           {| result_messages := None |}); [reflexivity|by left].
Defined.

(** X10. A search that fails makes the sync raise its error before any
    message is fetched.  The run catches it: with the credentials obtained
    and the folder created, nothing is uploaded, the Drive holds the new
    folder and what it held, and the line of the error ends the log. *)
Theorem failed_search_leaves_empty_folder
    (environ : gmap string string) (now : datetime) (identity : Identity)
    (gmail : Gmail) (drive : DriveService) (d : list DriveFile)
    (c : Credentials) (q folder_id : string) (e : exn) :
  res (get_credentials environ identity d) = Ok c →
  res (create_drive_folder now drive d) = Ok folder_id →
  getenv environ "GMAIL_SEARCH_QUERY" = Some q → q ≠ EmptyString →
  messages_list gmail q = Raise e →
  (∀ folder_id' d',
     download_attachments environ gmail drive q folder_id' d'
     = {| res := Raise e; final := d';
          log := [Print ("Searching for messages with query: " +:+ q);
                  GmailMessagesList q] |})
  ∧ main environ now identity gmail drive d
    = {| res := Ok (); final := final (create_drive_folder now drive d);
         log := log (get_credentials environ identity d)
                ++ log (create_drive_folder now drive d)
                ++ [Print ("Searching for messages with query: " +:+ q);
                    GmailMessagesList q;
                    Print ("An error occurred: " +:+ exn_str e)] |}.
Proof.
  intros Hc Hfolder Hq Hne Hlist.
  assert (∀ folder_id' d',
            download_attachments environ gmail drive q folder_id' d'
            = {| res := Raise e; final := d';
                 log := [Print ("Searching for messages with query: " +:+ q);
                         GmailMessagesList q] |}) as Hsync.
  { intros folder_id' d'. unfold download_attachments, print. cbv zeta.
    by rewrite bind_emit, Hlist, bind_call_raise. }
  split; [done|].
  rewrite (main_after_credentials environ now identity gmail drive d c Hc). cbv zeta.
  rewrite Hfolder, Hq. change (default EmptyString (Some q)) with q.
  destruct q; [done|]. cbn [Py.truthy negb]. by rewrite Hsync.
Qed.

Lemma failed_search_leaves_empty_folder_witness :
  let gmail :=
    {| messages_list := λ _,
         Raise (HttpError 500
                  "https://gmail.googleapis.com/gmail/v1/users/me/messages?alt=json"
                  "Backend Error" EmptyString);
       messages_get := messages_get Sample.mailbox;
       attachments_get := attachments_get Sample.mailbox |} in
  let o := main Sample.env_full Sample.november Sample.signed_in gmail Drive.reliable [] in
  upload_names (log o) = []
  ∧ map file_name (final o) = ["11-2026"]
  ∧ last (log o)
    = Some (Print ("An error occurred: <HttpError 500 when requesting "
                   +:+ "https://gmail.googleapis.com/gmail/v1/users/me/messages?alt=json"
                   +:+ " returned " +:+ Py.quoted "Backend Error" +:+ ">")).
Proof.
  intros gmail o.
  destruct (failed_search_leaves_empty_folder Sample.env_full Sample.november
              Sample.signed_in gmail Drive.reliable [] Sample.good_creds
              "has:attachment" "id0"
              (HttpError 500
                 "https://gmail.googleapis.com/gmail/v1/users/me/messages?alt=json"
                 "Backend Error" EmptyString)
              eq_refl eq_refl eq_refl) as [_ H]; [done|reflexivity|].
  subst o. rewrite H. repeat split; reflexivity.
Defined.

(** X11. A message that cannot be fetched, or a search result without an
    id, ends the sync with that error: the messages before it have been
    processed and what they uploaded stays, those after it are not
    touched. *)
Theorem unreadable_message_aborts_sync
    (gmail : Gmail) (drive : DriveService) (allowed : list string) (folder_id : string)
    (before after : list Summary) (msg : Summary) (d : list DriveFile) :
  let body := message_body_of_loop gmail drive allowed folder_id in
  let o1 := for_each before body d in
  res o1 = Ok () →
  (summary_id msg = None →
   for_each (before ++ msg :: after) body d
   = {| res := Raise (KeyError "id"); final := final o1; log := log o1 |})
  ∧ (∀ id e,
       summary_id msg = Some id → messages_get gmail id = Raise e →
       for_each (before ++ msg :: after) body d
       = {| res := Raise e; final := final o1;
            log := log o1 ++ [GmailMessagesGet id] |}).
Proof.
  intros body o1 Hok. split.
  - intros Hid. rewrite for_each_app_ok by done. fold o1.
    assert (body msg (final o1)
            = {| res := Raise (KeyError "id"); final := final o1; log := [] |}) as Hmsg.
    { unfold body, message_body_of_loop. by rewrite Hid. }
    rewrite for_each_cons_raise with (e := KeyError "id"); rewrite Hmsg; [|done].
    cbn [res final log]. by rewrite app_nil_r.
  - intros id e Hid Hget. rewrite for_each_app_ok by done. fold o1.
    assert (body msg (final o1)
            = {| res := Raise e; final := final o1; log := [GmailMessagesGet id] |})
      as Hmsg.
    { unfold body, message_body_of_loop.
      by rewrite Hid, bind_subscript_some, Hget, bind_call_raise. }
    rewrite for_each_cons_raise with (e := e); rewrite Hmsg; done.
Qed.

Lemma unreadable_message_aborts_sync_witness :
  let gmail :=
    {| messages_list := messages_list Sample.mailbox;
       messages_get := λ id,
         if String.eqb id "m1" then messages_get Sample.mailbox id
         else Raise Sample.not_found;
       attachments_get := attachments_get Sample.mailbox |} in
  let o := for_each [{| summary_id := Some "m1" |}; {| summary_id := Some "m2" |};
                     {| summary_id := Some "m3" |}]
             (message_body_of_loop gmail Drive.reliable [".pdf"] "id0") [] in
  res o = Raise Sample.not_found
  ∧ upload_names (log o) = ["invoice.pdf"]
  ∧ omap get_of (log o) = ["m1"; "m2"].
Proof.
  intros gmail o.
  destruct (unreadable_message_aborts_sync gmail Drive.reliable [".pdf"] "id0"
              [{| summary_id := Some "m1" |}] [{| summary_id := Some "m3" |}]
              {| summary_id := Some "m2" |} [] eq_refl) as [_ H].
  specialize (H "m2" Sample.not_found eq_refl eq_refl).
  simpl app in H. subst o. rewrite H. repeat split; vm_compute; reflexivity.
Defined.

(** X12. A candidate that passed the filter and the guard but whose
    attachment cannot be fetched, has no [data], or does not decode, raises
    that error: nothing is uploaded for it and the Drive is as it was. *)
Theorem failed_fetch_uploads_nothing
    (gmail : Gmail) (drive : DriveService) (allowed : list string)
    (folder_id msg_id : string)
    (part : Part) (f a : string) (d : list DriveFile) :
  candidate_of msg_id part
  = Some {| cand_message := msg_id; cand_filename := f; cand_attachment := a |} →
  extension_allowed f allowed = true →
  res (file_exists_in_drive drive f folder_id d) = Ok false →
  let o := part_body_of_loop gmail drive allowed folder_id msg_id part d in
  let seen := [DriveFilesList (guard_query folder_id f); GmailAttachmentsGet msg_id a] in
  (∀ e, attachments_get gmail msg_id a = Raise e →
        o = {| res := Raise e; final := d; log := seen |})
  ∧ (∀ attachment,
       attachments_get gmail msg_id a = Ok attachment →
       attachment_data attachment = None →
       o = {| res := Raise (KeyError "data"); final := d; log := seen |})
  ∧ (∀ attachment payload e,
       attachments_get gmail msg_id a = Ok attachment →
       attachment_data attachment = Some payload →
       Py.urlsafe_b64decode payload = Raise e →
       o = {| res := Raise e; final := d; log := seen |}).
Proof.
  intros Hc Hext Hguard. cbv zeta.
  rewrite (part_body_candidate _ _ _ _ _ _ _ _ _ Hc). cbv zeta. rewrite Hext. cbn [negb].
  rewrite file_exists_run in Hguard. cbn [res] in Hguard.
  destruct (Drive.list_files _ _ d) as [files|e0]; [|done].
  injection Hguard as ->.
  split; [|split].
  - by intros e ->.
  - by intros attachment -> ->.
  - by intros attachment payload e -> -> ->.
Qed.

Lemma failed_fetch_uploads_nothing_witness :
  part_body_of_loop Sample.unreachable Drive.reliable [".pdf"] "id0" "m1"
    (Sample.pdf_part "invoice.pdf" "a1") []
  = {| res := Raise Sample.unavailable; final := [];
       log := [DriveFilesList (guard_query "id0" "invoice.pdf");
               GmailAttachmentsGet "m1" "a1"] |}.
Proof.
  destruct (failed_fetch_uploads_nothing Sample.unreachable Drive.reliable [".pdf"] "id0" "m1"
              (Sample.pdf_part "invoice.pdf" "a1") "invoice.pdf" "a1" []
              eq_refl eq_refl eq_refl) as [H _].
  exact (H _ eq_refl).
Defined.

(** ** The duplicate guard and the uploads *)

(** X13. For a folder id without quote or backslash and a file name without
    backslash (quotes are escaped by the guard), the duplicate guard makes
    one list call and leaves the Drive as it is.  When the call fails its
    error is raised; otherwise the guard answers true exactly when some
    object of the Drive has that name, lies in that folder and is not in the
    bin. *)
Theorem duplicate_guard_is_exact_lookup
    (drive : DriveService) (folder_id name : string) (d : list DriveFile) :
  plain_id folder_id = true → no_backslash name = true →
  let o := file_exists_in_drive drive name folder_id d in
  final o = d
  ∧ log o = [DriveFilesList (guard_query folder_id name)]
  ∧ (list_fault drive (guard_query folder_id name) d = None →
     res o = Ok (present d folder_id name))
  ∧ (∀ e, list_fault drive (guard_query folder_id name) d = Some e → res o = Raise e)
  ∧ (present d folder_id name = true
     ↔ ∃ f, f ∈ d ∧ file_name f = name ∧ folder_id ∈ file_parents f
            ∧ file_trashed f = false).
Proof.
  intros Hplain Hname. cbv zeta. rewrite guard_exact by done. cbn [res final log].
  split; [done|]. split; [done|].
  split; [by intros ->|]. split; [by intros e ->|].
  unfold present. rewrite existsb_exists. unfold Drive.matches. split.
  - intros (f & Hf & [[Hp Hn]%andb_true_iff Ht]%andb_true_iff). exists f.
    apply list_elem_of_In in Hf. apply String.eqb_eq in Hn.
    apply bool_decide_eq_true in Hp. apply negb_true_iff in Ht. done.
  - intros (f & Hf & Hn & Hp & Ht). exists f. split; [by apply list_elem_of_In|].
    rewrite Hn, Ht, String.eqb_refl, bool_decide_eq_true_2 by done. done.
Qed.

Lemma duplicate_guard_is_exact_lookup_witness :
  let stored name trashed :=
    {| file_id := "x"; file_name := name; file_mimeType := None;
       file_parents := ["id0"]; file_trashed := trashed; file_media := Some [] |} in
  let guard := file_exists_in_drive Drive.reliable "o'neil.pdf" in
  res (guard "id0" [stored "o'neil.pdf" false]) = Ok true
  ∧ res (guard "id0" [stored "o'neil.pdf" true]) = Ok false
  ∧ res (guard "id1" [stored "o'neil.pdf" false]) = Ok false
  ∧ res (file_exists_in_drive
           {| create_fault := create_fault Drive.reliable;
              list_fault := λ _ _, Some Sample.unavailable;
              odd_query := odd_query Drive.reliable |}
           "o'neil.pdf" "id0" [stored "o'neil.pdf" false])
    = Raise Sample.unavailable.
Proof.
  intros stored guard. subst guard.
  destruct (duplicate_guard_is_exact_lookup Drive.reliable "id0" "o'neil.pdf"
              [stored "o'neil.pdf" false] eq_refl eq_refl) as (_ & _ & H1 & _).
  destruct (duplicate_guard_is_exact_lookup Drive.reliable "id0" "o'neil.pdf"
              [stored "o'neil.pdf" true] eq_refl eq_refl) as (_ & _ & H2 & _).
  destruct (duplicate_guard_is_exact_lookup Drive.reliable "id1" "o'neil.pdf"
              [stored "o'neil.pdf" false] eq_refl eq_refl) as (_ & _ & H3 & _).
  destruct (duplicate_guard_is_exact_lookup
              {| create_fault := create_fault Drive.reliable;
                 list_fault := λ _ _, Some Sample.unavailable;
                 odd_query := odd_query Drive.reliable |}
              "id0" "o'neil.pdf" [stored "o'neil.pdf" false] eq_refl eq_refl)
    as (_ & _ & _ & H4 & _).
  rewrite (H1 eq_refl), (H2 eq_refl), (H3 eq_refl), (H4 _ eq_refl). repeat split.
Defined.

(** X16. One candidate, for a plain folder id and a name without backslash:
    an upload call is issued for it, once, exactly when it passes the filter,
    the guard's list call goes through and finds no live object of its name
    in the folder, and its attachment is fetched, has [data] and decodes;
    otherwise no upload call is issued for it. *)
Theorem candidate_uploaded_iff
    (gmail : Gmail) (drive : DriveService) (allowed : list string)
    (folder_id msg_id : string) (part : Part) (c : candidate) (d : list DriveFile) :
  plain_id folder_id = true →
  candidate_of msg_id part = Some c → no_backslash (cand_filename c) = true →
  let o := part_body_of_loop gmail drive allowed folder_id msg_id part d in
  (upload_names (log o) = [cand_filename c]
   ↔ extension_allowed (cand_filename c) allowed = true
     ∧ list_fault drive (guard_query folder_id (cand_filename c)) d = None
     ∧ present d folder_id (cand_filename c) = false
     ∧ ∃ attachment payload data,
         attachments_get gmail msg_id (cand_attachment c) = Ok attachment
         ∧ attachment_data attachment = Some payload
         ∧ Py.urlsafe_b64decode payload = Ok data)
  ∧ (upload_names (log o) ≠ [cand_filename c] → upload_names (log o) = []).
Proof.
  destruct c as [m f a]. intros Hplain Hc Hname.
  pose proof (candidate_of_message _ _ _ Hc) as Hm. simpl in Hm, Hname. subst m.
  cbv zeta. rewrite (part_body_candidate _ _ _ _ _ _ _ _ _ Hc). cbv zeta.
  cbn [cand_filename cand_attachment].
  rewrite list_files_guard by done.
  destruct (extension_allowed f allowed); cbn [negb].
  2:{ split; [|done]. split; [done|]. by intros [? _]. }
  destruct (list_fault drive _ d) as [e|].
  { split; [|done]. split; [done|]. by intros (_ & ? & _). }
  rewrite existsb_filter_length. fold (present d folder_id f).
  destruct (present d folder_id f).
  { split; [|done]. split; [done|]. by intros (_ & _ & ? & _). }
  destruct (attachments_get gmail msg_id a) as [att|e].
  2:{ split; [|done]. split; [done|]. by intros (_ & _ & _ & ? & ? & ? & ? & _). }
  destruct (attachment_data att) as [payload|] eqn:Hdata.
  2:{ split; [|done]. split; [done|].
      intros (_ & _ & _ & att' & p & dt & [= <-] & Hd & _). congruence. }
  destruct (Py.urlsafe_b64decode payload) as [data|e] eqn:Hdec.
  2:{ split; [|done]. split; [done|].
      intros (_ & _ & _ & att' & p & dt & [= <-] & Hd & Hdc). congruence. }
  assert (∃ att' p dt, Ok att = Ok att' ∧ attachment_data att' = Some p
                       ∧ Py.urlsafe_b64decode p = Ok dt) as Hfetch.
  { by exists att, payload, data. }
  destruct (create_fault drive f None [folder_id] (Some data) d);
    (split; [|done]); (split; [|done]); intros _; done.
Qed.

Lemma candidate_uploaded_iff_witness :
  upload_names
    (log (part_body_of_loop Sample.mailbox Drive.reliable [".pdf"] "id0" "m1"
            (Sample.pdf_part "invoice.pdf" "a1") []))
  = ["invoice.pdf"].
Proof.
  destruct (candidate_uploaded_iff Sample.mailbox Drive.reliable [".pdf"] "id0" "m1"
              (Sample.pdf_part "invoice.pdf" "a1")
              {| cand_message := "m1"; cand_filename := "invoice.pdf";
                 cand_attachment := "a1" |} [] eq_refl eq_refl eq_refl) as [[_ H] _].
  apply H. split; [reflexivity|]. split; [reflexivity|]. split; [reflexivity|].
  eexists _, _, _. repeat split; reflexivity.
Defined.

(** X15. What is uploaded is found: after an upload that went through, the
    guard, when its list call goes through, answers true for that name in
    that folder, and for any other name what the folder held before (plain
    folder id, names without backslash). *)
Theorem uploaded_file_is_found_by_guard
    (drive : DriveService) (folder_id name : string) (data : list Byte.byte)
    (d : list DriveFile) :
  plain_id folder_id = true → no_backslash name = true →
  let o := upload_to_drive drive name data folder_id d in
  res o = Ok () →
  (list_fault drive (guard_query folder_id name) (final o) = None →
   res (file_exists_in_drive drive name folder_id (final o)) = Ok true)
  ∧ (∀ other, no_backslash other = true → other ≠ name →
       list_fault drive (guard_query folder_id other) (final o) = None →
       res (file_exists_in_drive drive other folder_id (final o))
       = Ok (present d folder_id other)).
Proof.
  intros Hplain Hname o Hok. subst o.
  destruct (create_fault drive name None [folder_id] (Some data) d) as [e|] eqn:Hfault.
  { by rewrite (upload_to_drive_raise _ _ _ _ _ _ Hfault) in Hok. }
  rewrite (upload_to_drive_ok _ _ _ _ _ Hfault). cbn [final]. split.
  - intros Hlist. rewrite guard_exact by done. cbn [res]. rewrite Hlist.
    by rewrite present_after_upload, String.eqb_refl, orb_true_r.
  - intros other Hother Hne Hlist. rewrite guard_exact by done. cbn [res].
    rewrite Hlist, present_after_upload.
    assert (String.eqb name other = false) as ->; [|by rewrite orb_false_r].
    apply String.eqb_neq. congruence.
Qed.

Lemma uploaded_file_is_found_by_guard_witness :
  res (file_exists_in_drive Drive.reliable "a.pdf" "id0" []) = Ok false
  ∧ res (file_exists_in_drive Drive.reliable "a.pdf" "id0"
           (final (upload_to_drive Drive.reliable "a.pdf" [] "id0" []))) = Ok true.
Proof.
  split; [reflexivity|].
  destruct (uploaded_file_is_found_by_guard Drive.reliable "id0" "a.pdf" [] []
              eq_refl eq_refl eq_refl) as [H _].
  exact (H eq_refl).
Defined.

(** ** A whole sync *)

(** The uploads of a sync are the prescribed ones, as far as it went. *)
Lemma download_uploads_as_expected environ gmail drive query folder_id d results :
  messages_list gmail query = Ok results →
  plain_id folder_id = true →
  Forall (λ c, no_backslash (cand_filename c) = true)
    (candidates gmail (default [] (result_messages results))) →
  uploads_as_expected
    (allowed_extensions (default EmptyString (getenv environ "ALLOWED_EXTENSIONS")))
    folder_id
    (map cand_filename (candidates gmail (default [] (result_messages results))))
    d (download_attachments environ gmail drive query folder_id d).
Proof.
  intros Hlist Hplain Hnames. rewrite candidates_names.
  destruct (default [] (result_messages results)) as [|msg rest] eqn:Hmsgs.
  - unfold download_attachments, print. cbv zeta.
    rewrite bind_emit, Hlist, bind_call_ok, Hmsgs.
    intros taken Hinv. simpl. split; [done|]. intros _. split; [done|]. apply Hinv.
  - rewrite (download_attachments_messages _ _ _ _ _ _ _ _ _ Hlist Hmsgs). cbv zeta.
    match goal with
    | |- context [for_each _ (message_body_of_loop _ _ ?al _) _] => set (allowed := al)
    end.
    pose proof (for_each_uploads_as_expected allowed folder_id
                  (message_body_of_loop gmail drive allowed folder_id) (message_names gmail)
                  (msg :: rest) d) as H.
    intros taken Hinv. cbn [res final log].
    change (upload_names (Print ?a :: GmailMessagesList ?b :: Print ?c :: ?l))
      with (upload_names l).
    apply H; [|done].
    intros m d' Hm. apply message_body_uploads_as_expected; [done|].
    intros id part c Hid Hpart Hc.
    rewrite Forall_forall in Hnames. apply Hnames.
    by apply (candidates_elem gmail (msg :: rest) m id part).
Qed.

Lemma expected_uploads_nil allowed names taken :
  (∀ n, n ∈ names → extension_allowed n allowed = true → n ∈ taken) →
  expected_uploads allowed names taken = [].
Proof.
  induction names as [|name names IH]; intros H; [done|]. simpl.
  destruct (extension_allowed name allowed) eqn:Hext; cbn [andb].
  - rewrite bool_decide_eq_true_2 by (apply H; [left|done]). cbn [negb].
    apply IH. intros n Hn. apply H. by right.
  - apply IH. intros n Hn. apply H. by right.
Qed.

Lemma expected_uploads_sound allowed names taken n :
  n ∈ expected_uploads allowed names taken →
  n ∈ names ∧ extension_allowed n allowed = true.
Proof.
  revert taken. induction names as [|name names IH]; intros taken;
    [by intros ?%elem_of_nil|].
  simpl. destruct (extension_allowed name allowed) eqn:Hext; cbn [andb].
  - destruct (negb _).
    + intros [->|H]%elem_of_cons; [split; [left|done]|].
      destruct (IH _ H). split; [by right|done].
    + intros H. destruct (IH _ H). split; [by right|done].
  - intros H. destruct (IH _ H). split; [by right|done].
Qed.

(** X17. Over a sync (plain folder id, candidate names without backslash)
    no name is uploaded twice, however many candidates bear it.  The names
    uploaded are, in order, the candidates that pass the filter and whose
    name is neither in the folder at the start nor uploaded earlier in the
    sync: a first part of that list when an exception ends the sync, the
    whole list otherwise. *)
Theorem sync_uploads_each_name_once
    (environ : gmap string string) (gmail : Gmail) (drive : DriveService)
    (query folder_id : string)
    (d : list DriveFile) (results : SearchResult) :
  messages_list gmail query = Ok results →
  plain_id folder_id = true →
  let messages := default [] (result_messages results) in
  Forall (λ c, no_backslash (cand_filename c) = true) (candidates gmail messages) →
  let allowed :=
    allowed_extensions (default EmptyString (getenv environ "ALLOWED_EXTENSIONS")) in
  let names := map cand_filename (candidates gmail messages) in
  let o := download_attachments environ gmail drive query folder_id d in
  NoDup (upload_names (log o))
  ∧ upload_names (log o)
    `prefix_of` expected_uploads allowed names (live_names d folder_id)
  ∧ (∀ n, n ∈ upload_names (log o) →
       n ∈ names ∧ extension_allowed n allowed = true ∧ present d folder_id n = false)
  ∧ (res o = Ok () →
     upload_names (log o) = expected_uploads allowed names (live_names d folder_id)
     ∧ ∀ n, n ∈ names → extension_allowed n allowed = true →
            present d folder_id n = false → n ∈ upload_names (log o)).
Proof.
  intros Hlist Hplain messages Hnames allowed names o.
  destruct (download_uploads_as_expected environ gmail drive query folder_id d results
              Hlist Hplain Hnames (live_names d folder_id) (present_live_names d folder_id))
    as [Hpre Hok].
  fold messages names allowed o in Hpre, Hok.
  destruct (expected_uploads_fresh allowed names (live_names d folder_id)) as [Hnd Hfresh].
  split; [|split; [done|split]].
  - destruct Hpre as [k Hk]. rewrite Hk in Hnd. by apply NoDup_app in Hnd as [? _].
  - intros n Hn. destruct Hpre as [k Hk].
    assert (n ∈ expected_uploads allowed names (live_names d folder_id)) as Hin.
    { rewrite Hk. apply elem_of_app. by left. }
    destruct (expected_uploads_sound _ _ _ _ Hin) as [? ?].
    split; [done|]. split; [done|].
    apply not_true_is_false. rewrite present_live_names. by apply Hfresh.
  - intros Hres. destruct (Hok Hres) as [Heq _]. split; [done|].
    intros n Hn Hext Hp. rewrite Heq. apply expected_uploads_complete; [done..|].
    rewrite <-present_live_names. congruence.
Qed.

Lemma sync_uploads_each_name_once_witness :
  upload_names
    (log (download_attachments Sample.env_pdf (Sample.twice "a.pdf") Drive.reliable "has:attachment"
            "id0" []))
  = ["a.pdf"].
Proof.
  pose proof (sync_uploads_each_name_once Sample.env_pdf (Sample.twice "a.pdf")
                Drive.reliable "has:attachment" "id0" [] (Sample.summaries ["m1"; "m2"])
                eq_refl eq_refl) as H.
  cbv zeta in H.
  destruct H as (_ & _ & _ & Hok).
  { repeat constructor. }
  destruct (Hok eq_refl) as [-> _]. reflexivity.
Defined.

(** X18. A sync that ended without exception leaves nothing to do: run
    again on the same mailbox into the same folder, it uploads nothing
    (plain folder id, candidate names without backslash). *)
Theorem second_sync_uploads_nothing
    (environ : gmap string string) (gmail : Gmail) (drive : DriveService)
    (query folder_id : string)
    (d : list DriveFile) (results : SearchResult) :
  messages_list gmail query = Ok results →
  plain_id folder_id = true →
  Forall (λ c, no_backslash (cand_filename c) = true)
    (candidates gmail (default [] (result_messages results))) →
  let o1 := download_attachments environ gmail drive query folder_id d in
  res o1 = Ok () →
  uploads (log (download_attachments environ gmail drive query folder_id (final o1))) = [].
Proof.
  intros Hlist Hplain Hnames o1 Hok.
  pose proof (download_uploads_as_expected environ gmail drive query folder_id) as Hexp.
  destruct (Hexp d results Hlist Hplain Hnames (live_names d folder_id)
              (present_live_names d folder_id)) as [_ H1].
  fold o1 in H1. destruct (H1 Hok) as [Heq Hinv].
  destruct (Hexp (final o1) results Hlist Hplain Hnames _ Hinv) as [Hpre _].
  rewrite expected_uploads_nil in Hpre.
  - apply prefix_nil_inv in Hpre. unfold upload_names in Hpre.
    by apply fmap_nil_inv in Hpre.
  - intros n Hn Hext. apply elem_of_app.
    destruct (decide (n ∈ live_names d folder_id)) as [?|Hfresh]; [by right|left].
    apply list_elem_of_In. rewrite <-in_rev. apply list_elem_of_In.
    rewrite Heq. by apply expected_uploads_complete.
Qed.

Lemma second_sync_uploads_nothing_witness :
  let o1 := download_attachments Sample.env_pdf Sample.mailbox Drive.reliable "has:attachment" "id0" [] in
  upload_names (log o1) = ["invoice.pdf"]
  ∧ uploads (log (download_attachments Sample.env_pdf Sample.mailbox Drive.reliable "has:attachment"
                    "id0" (final o1))) = [].
Proof.
  intros o1. split; [reflexivity|].
  apply (second_sync_uploads_nothing Sample.env_pdf Sample.mailbox Drive.reliable "has:attachment"
           "id0" [] (Sample.summaries ["m1"; "m2"]) eq_refl eq_refl);
    [repeat constructor|reflexivity].
Defined.

(** ** What a sync adds to the Drive *)

Section Stores.

Variable drive : DriveService.

Lemma stores_quiet {A} (m : M A) : quiet_on no_upload m → stores_uploads m.
Proof.
  intros H d. destruct (H d) as [Hfin Hlog]. exists [].
  apply uploads_nil_iff in Hlog. rewrite Hfin, Hlog, app_nil_r. done.
Qed.

Lemma stores_bind {A B} (m : M A) (f : A → M B) :
  stores_uploads m → (∀ a, stores_uploads (f a)) → stores_uploads (bind m f).
Proof.
  intros Hm Hf d. destruct (Hm d) as (added1 & Hfin1 & Hpre1 & Heq1 & Hall1).
  unfold bind. destruct (res (m d)) as [a|e] eqn:Hres; cbn [res final log].
  - destruct (Hf a (final (m d))) as (added2 & Hfin2 & Hpre2 & Heq2 & Hall2).
    exists (added1 ++ added2).
    rewrite uploads_app, !map_app, (Heq1 (ex_intro _ a eq_refl)).
    split; [by rewrite Hfin2, Hfin1, app_assoc|]. split; [by apply prefix_app|].
    split; [intros Hok; by rewrite (Heq2 Hok)|by apply Forall_app].
  - exists added1. split; [done|]. split; [done|]. split; [|done]. by intros [? ?].
Qed.

Lemma stores_files_list q : stores_uploads (files_list drive q).
Proof. intros d. exists []. by rewrite app_nil_r. Qed.

Lemma stores_upload file_name file_data folder_id :
  stores_uploads (upload_to_drive drive file_name file_data folder_id).
Proof.
  intros d.
  destruct (create_fault drive file_name None [folder_id] (Some file_data) d)
    as [e|] eqn:H.
  - rewrite (upload_to_drive_raise _ _ _ _ _ _ H). exists []. cbn [res final log].
    rewrite app_nil_r. split; [done|]. split; [apply prefix_nil|].
    split; [by intros [? ?]|done].
  - rewrite (upload_to_drive_ok _ _ _ _ _ H). eexists [_]. cbn [res final log].
    split; [done|]. split; [done|]. split; [done|]. by repeat constructor.
Qed.

Lemma stores_for_each {A} (body : A → M unit) l :
  (∀ x, stores_uploads (body x)) → stores_uploads (for_each l body).
Proof.
  intros H. induction l as [|x l IH].
  - apply stores_quiet, quiet_ret.
  - apply stores_bind; [apply H|]. by intros _.
Qed.

End Stores.

Ltac stores_leaf := apply stores_quiet; quiet_leaf.

Section SyncStores.

Variable environ : gmap string string.
Variable gmail : Gmail.
Variable drive : DriveService.
Variable folder_id : string.

Lemma file_exists_stores file_name :
  stores_uploads (file_exists_in_drive drive file_name folder_id).
Proof.
  unfold file_exists_in_drive. cbv zeta.
  apply stores_bind; [apply stores_files_list|intros ?; stores_leaf].
Qed.

Lemma part_body_stores allowed msg_id part :
  stores_uploads (part_body_of_loop gmail drive allowed folder_id msg_id part).
Proof.
  unfold part_body_of_loop, print. cbv zeta.
  destruct (Py.truthy _); [|stores_leaf].
  apply stores_bind; [stores_leaf|intros body].
  destruct (body_attachmentId body); [|stores_leaf].
  destruct (negb _); [stores_leaf|].
  apply stores_bind; [apply file_exists_stores|intros present].
  destruct present; [stores_leaf|].
  apply stores_bind; [stores_leaf|intros attachment].
  apply stores_bind; [stores_leaf|intros data].
  apply stores_bind; [stores_leaf|intros file_data].
  apply stores_bind; [apply stores_upload|intros ?; stores_leaf].
Qed.

Lemma message_body_stores allowed msg :
  stores_uploads (message_body_of_loop gmail drive allowed folder_id msg).
Proof.
  unfold message_body_of_loop.
  apply stores_bind; [stores_leaf|intros msg_id].
  apply stores_bind; [stores_leaf|intros message].
  destruct (message_payload message) as [payload|]; [|stores_leaf].
  destruct (payload_parts payload) as [parts|]; [|stores_leaf].
  apply stores_for_each. intros part. apply part_body_stores.
Qed.

Lemma download_attachments_stores query :
  stores_uploads (download_attachments environ gmail drive query folder_id).
Proof.
  unfold download_attachments, print. cbv zeta.
  apply stores_bind; [stores_leaf|intros ?].
  apply stores_bind; [stores_leaf|intros results].
  destruct (default [] (result_messages results)); [stores_leaf|].
  apply stores_bind; [stores_leaf|intros ?].
  apply stores_for_each. intros msg. apply message_body_stores.
Qed.

End SyncStores.

(** X19. The Drive after a sync is the Drive before it followed by the
    objects of its upload calls, in the order of the calls: each bears the
    name and the bytes of its call, has the folder of the run as its only
    parent and is not in the bin.  There is one object per upload call when
    the sync ends without exception; when an exception ends it, the objects
    are those of the first upload calls, all of them or all but the last.
    Nothing else is added, nothing is removed or changed. *)
Theorem sync_adds_exactly_its_uploads
    (environ : gmap string string) (gmail : Gmail) (drive : DriveService)
    (query folder_id : string) (d : list DriveFile) :
  let o := download_attachments environ gmail drive query folder_id d in
  ∃ added,
    final o = d ++ added
    ∧ map stored_as added `prefix_of` map sent_as (uploads (log o))
    ∧ (res o = Ok () → map stored_as added = map sent_as (uploads (log o)))
    ∧ Forall (λ f, file_parents f = [folder_id] ∧ file_trashed f = false) added.
Proof.
  cbv zeta.
  destruct (download_attachments_stores environ gmail drive folder_id query d)
    as (added & Hfin & Hpre & Heq & Hlive).
  exists added. split; [done|]. split; [done|].
  split; [intros Hok; apply Heq; by exists ()|].
  pose proof (download_attachments_logs environ gmail drive folder_id query d) as Hlog.
  rewrite Forall_forall in Hlog. rewrite Forall_forall in Hlive.
  apply Forall_forall. intros f Hf.
  split; [|by apply Hlive].
  assert (stored_as f ∈ map sent_as
            (uploads (log (download_attachments environ gmail drive query folder_id d))))
    as Hsent.
  { destruct Hpre as [k ->]. apply elem_of_app. left.
    apply list_elem_of_fmap. by exists f. }
  apply list_elem_of_fmap in Hsent as ([[n ps] dt] & Heqf & Hu).
  apply list_elem_of_omap in Hu as (ev & Hev & Hup).
  specialize (Hlog ev Hev).
  destruct ev; try done. destruct media; [|done]. injection Hup as -> -> ->.
  destruct Hlog as (_ & -> & _). by injection Heqf as _ -> _.
Qed.

(** X20. A candidate that does not pass the filter costs no call at all:
    it is neither looked up in the folder nor fetched.  A candidate that
    passes the filter and is found in the folder is not fetched either: the
    guard's list call and the line that says it is skipped are all there
    is. *)
Theorem skipped_candidate_is_not_fetched
    (gmail : Gmail) (drive : DriveService) (allowed : list string)
    (folder_id msg_id : string)
    (part : Part) (f a : string) (d : list DriveFile) :
  candidate_of msg_id part
  = Some {| cand_message := msg_id; cand_filename := f; cand_attachment := a |} →
  let o := part_body_of_loop gmail drive allowed folder_id msg_id part d in
  (extension_allowed f allowed = false → o = {| res := Ok (); final := d; log := [] |})
  ∧ (extension_allowed f allowed = true →
     res (file_exists_in_drive drive f folder_id d) = Ok true →
     o = {| res := Ok (); final := d;
            log := [DriveFilesList (guard_query folder_id f);
                    Print ("File '" +:+ f
                           +:+ "' already exists in Drive folder, skipping.")] |}).
Proof.
  intros Hc. cbv zeta. rewrite (part_body_candidate _ _ _ _ _ _ _ _ _ Hc). cbv zeta.
  split.
  - by intros ->.
  - intros -> Hguard. cbn [negb].
    rewrite file_exists_run in Hguard. cbn [res] in Hguard.
    destruct (Drive.list_files _ _ d) as [files|e]; [|done].
    by injection Hguard as ->.
Qed.

Lemma skipped_candidate_is_not_fetched_witness :
  part_body_of_loop Sample.mailbox Drive.reliable [".pdf"] "id0" "m2" (Sample.pdf_part "notes.txt" "a2") []
  = {| res := Ok (); final := []; log := [] |}.
Proof.
  destruct (skipped_candidate_is_not_fetched Sample.mailbox Drive.reliable [".pdf"] "id0" "m2"
              (Sample.pdf_part "notes.txt" "a2") "notes.txt" "a2" [] eq_refl) as [H _].
  exact (H eq_refl).
Defined.

(** ** The order of processing (C8) *)

(** C8. The sync goes through the messages in the order of the search
    result and, in each message, through its parts in the order the service
    lists them.  Read off the calls it makes: the messages opened are the
    first ids of the result; the messages opened and the names looked up in
    the folder (one for every candidate that passes the filter) are, in
    order, the first visits of the schedule; both are complete when the sync
    ends without exception.  The fetches and the uploads come in between, in
    the places the schedule gives them.  For a plain folder id and names
    without backslash the names uploaded are, in the order of the candidates,
    those that pass the filter and are not in the folder yet. *)
Theorem processing_follows_service_order
    (environ : gmap string string) (gmail : Gmail) (drive : DriveService)
    (query folder_id : string) (d : list DriveFile) (results : SearchResult) :
  messages_list gmail query = Ok results →
  let messages := default [] (result_messages results) in
  let allowed :=
    allowed_extensions (default EmptyString (getenv environ "ALLOWED_EXTENSIONS")) in
  let plan := schedule gmail allowed folder_id messages in
  let o := download_attachments environ gmail drive query folder_id d in
  omap get_of (log o) `prefix_of` omap summary_id messages
  ∧ visits (log o) `prefix_of` List.filter is_visit plan
  ∧ steps (log o) `sublist_of` plan
  ∧ (res o = Ok () →
     omap get_of (log o) = omap summary_id messages
     ∧ length (omap get_of (log o)) = length messages
     ∧ visits (log o) = List.filter is_visit plan)
  ∧ (plain_id folder_id = true →
     Forall (λ c, no_backslash (cand_filename c) = true) (candidates gmail messages) →
     upload_names (log o)
     `prefix_of` expected_uploads allowed (map cand_filename (candidates gmail messages))
                   (live_names d folder_id)
     ∧ (res o = Ok () →
        upload_names (log o)
        = expected_uploads allowed (map cand_filename (candidates gmail messages))
            (live_names d folder_id))).
Proof.
  intros Hlist messages allowed plan o.
  assert (omap get_of (log o) `prefix_of` omap summary_id messages
          ∧ visits (log o) `prefix_of` List.filter is_visit plan
          ∧ steps (log o) `sublist_of` plan
          ∧ (res o = Ok () →
             omap get_of (log o) = omap summary_id messages
             ∧ length (omap get_of (log o)) = length messages
             ∧ visits (log o) = List.filter is_visit plan)) as (H1 & H2 & H3 & H4).
  { subst o plan. destruct messages as [|msg rest] eqn:Hmsgs.
    - unfold download_attachments, print. cbv zeta.
      rewrite bind_emit, Hlist, bind_call_ok. fold messages. rewrite Hmsgs. simpl.
      split; [done|]. split; [done|]. split; [done|]. done.
    - rewrite (download_attachments_messages _ _ _ _ _ _ _ _ _ Hlist Hmsgs).
      cbv zeta. fold allowed. cbn [res log].
      change (omap get_of (Print ?a :: GmailMessagesList ?b :: Print ?c :: ?l))
        with (omap get_of l).
      change (steps (Print ?a :: GmailMessagesList ?b :: Print ?c :: ?l)) with (steps l).
      change (visits (Print ?a :: GmailMessagesList ?b :: Print ?c :: ?l))
        with (visits l).
      destruct (messages_loop_opens gmail drive allowed folder_id (msg :: rest) d)
        as [Hpre Hall].
      destruct (for_each_visits (message_body_of_loop gmail drive allowed folder_id)
                  (λ m, match summary_id m with
                        | Some id => message_schedule gmail allowed folder_id id
                        | None => []
                        end) (msg :: rest) d) as [Hvpre Hveq].
      { intros m d' _. apply message_body_visits. }
      split; [done|]. split; [done|]. split.
      + unfold schedule. apply for_each_steps_sublist.
        intros m d' _. apply message_body_steps.
      + intros Hok. destruct (Hall Hok) as [? ?]. split; [done|]. split; [done|].
        by apply Hveq. }
  split; [done|]. split; [done|]. split; [done|]. split; [done|].
  intros Hplain Hnames.
  destruct (download_uploads_as_expected environ gmail drive query folder_id d results
              Hlist Hplain Hnames (live_names d folder_id)
              (present_live_names d folder_id)) as [Hpre Heq].
  split; [done|]. intros Hok. by destruct (Heq Hok).
Qed.

Lemma processing_follows_service_order_witness :
  let o := download_attachments Sample.env_pdf Sample.several Drive.reliable
             "has:attachment" "id0" [] in
  let looked_up name := Checked (guard_query "id0" name) in
  omap get_of (log o) = ["m1"; "m2"]
  ∧ visits (log o)
    = [Opened "m1"; looked_up "first.pdf"; looked_up "last.pdf";
       Opened "m2"; looked_up "invoice.pdf"; looked_up "first.pdf"]
  ∧ upload_names (log o) = ["first.pdf"; "last.pdf"; "invoice.pdf"]
  ∧ steps (log o)
    = [Opened "m1";
       looked_up "first.pdf"; Fetched "m1" "a1"; Uploaded "first.pdf";
       looked_up "last.pdf"; Fetched "m1" "a3"; Uploaded "last.pdf";
       Opened "m2";
       looked_up "invoice.pdf"; Fetched "m2" "a4"; Uploaded "invoice.pdf";
       looked_up "first.pdf"].
Proof.
  intros o looked_up.
  pose proof (processing_follows_service_order Sample.env_pdf Sample.several
                Drive.reliable "has:attachment" "id0" []
                (Sample.summaries ["m1"; "m2"]) eq_refl) as H.
  cbv zeta in H. destruct H as (_ & _ & _ & Hok & Hup).
  destruct (Hok eq_refl) as (Hget & _ & Hvisits).
  destruct Hup as [_ Hup]; [reflexivity|repeat constructor|].
  fold o in Hget, Hvisits, Hup.
  split; [by rewrite Hget|]. split; [by rewrite Hvisits|].
  split; [by rewrite (Hup eq_refl)|]. reflexivity.
Defined.
